(** * Test targets of the debugger: a shallow embedding and its properties

    Two stand-alone fixtures are modelled here.

    - [test/targets/print_longdouble.cpp] stores two [long double]
      constants into one stack slot and prints, after each store, the 16
      bytes found behind a [uint8_t*] alias of that slot.  It is embedded
      as a program in a small state monad over a byte-addressed memory and
      the text written to standard output.

    - [debugger/test_targets/multi_threaded2.cpp] starts ten threads that
      report their thread id once per second, and then joins them.  It is
      embedded as a labelled transition system: the main thread and each
      spawned thread own a control label, and a schedule (a list of actors)
      decides who moves next. *)

From Stdlib Require Import ZArith QArith List Bool Lia.
From Stdlib Require Import Strings.String Strings.Ascii Strings.Byte.
From stdpp Require Import base list.
Import ListNotations.

Local Open Scope Z_scope.

(** ** Text helpers shared by both programs *)

Module Text.

Local Open Scope string_scope.

Definition newline : ascii := Ascii.ascii_of_nat 10.
Definition space : ascii := Ascii.ascii_of_nat 32.
Definition nl : string := String newline EmptyString.

(** [digit_char d] is the character of the digit [d] in bases up to 16,
    lower case as printf's [x] conversion has it. *)
Definition digit_char (d : Z) : ascii :=
  if (d <? 10)%Z then Ascii.ascii_of_nat (48 + Z.to_nat d)
  else Ascii.ascii_of_nat (87 + Z.to_nat d).

(** Digits of a non-negative number, most significant first, no leading
    zero; [fuel] bounds the number of digits produced. *)
Fixpoint digits (base : Z) (fuel : nat) (v : Z) (acc : string) : string :=
  match fuel with
  | O => acc
  | S fuel' =>
      let acc' := String (digit_char (v mod base)%Z) acc in
      if (v / base =? 0)%Z then acc' else digits base fuel' (v / base)%Z acc'
  end.

(** [split_on c s]: the pieces of [s] between occurrences of [c]. *)
Fixpoint split_on (c : ascii) (s : string) : list string :=
  match s with
  | EmptyString => [EmptyString]
  | String a s' =>
      if Ascii.eqb a c then EmptyString :: split_on c s'
      else match split_on c s' with
           | [] => [String a EmptyString]
           | p :: ps => String a p :: ps
           end
  end.

Definition nonempty (s : string) : bool :=
  match s with EmptyString => false | String _ _ => true end.

(** The lines of a text: what precedes each newline, and a last piece
    without newline when there is one. *)
Definition lines (s : string) : list string :=
  let ps := split_on newline s in
  match List.last ps EmptyString with
  | EmptyString => List.removelast ps
  | String _ _ => ps
  end.

(** The space-separated tokens of a line. *)
Definition tokens (s : string) : list string :=
  List.filter nonempty (split_on space s).

(** The shape of a text: how many tokens each of its lines has. *)
Definition shape (s : string) : list nat :=
  List.map (fun l => List.length (tokens l)) (lines s).

Fixpoint concat (ss : list string) : string :=
  match ss with
  | [] => EmptyString
  | s :: ss' => s ++ concat ss'
  end.

(** Whether the character [c] occurs in [s]. *)
Fixpoint occurs (c : ascii) (s : string) : bool :=
  match s with
  | EmptyString => false
  | String a s' => Ascii.eqb a c || occurs c s'
  end.

(** A token is clean when it is not empty and holds neither a space nor a
    newline: printed with a space after it, it is read back as one token. *)
Definition clean (s : string) : bool :=
  nonempty s && negb (occurs space s) && negb (occurs newline s).

End Text.

(** ** test/targets/print_longdouble.cpp *)

Module PrintLongDouble.

Import Text.

(** *** Memory, standard output and the program monad *)

Definition addr := Z.
Definition memory := addr -> byte.

(** What the program does to memory, in program order. *)
Inductive access :=
| Load (a : addr)
| Store (a : addr) (b : byte).

Record world := World {
  mem : memory;
  stdout : string;
  accesses : list access
}.

Definition prog (A : Type) : Type := world -> A * world.

Definition ret {A} (x : A) : prog A := fun w => (x, w).

Definition bind {A B} (m : prog A) (k : A -> prog B) : prog B :=
  fun w => let (x, w') := m w in k x w'.

Notation "x <- m ;; k" := (bind m (fun x => k))
  (at level 100, m at next level, right associativity).
Notation "m ;; k" := (bind m (fun _ => k))
  (at level 100, right associativity).

Definition exec {A} (m : prog A) (w : world) : world := snd (m w).

(** [uint8_t] values as numbers in [0, 256). *)
Definition byte_val (b : byte) : Z := Z.of_N (Byte.to_N b).

Definition byte_of_Z (z : Z) : byte :=
  match Byte.of_N (Z.to_N (z mod 256)) with
  | Some b => b
  | None => x00
  end.

(** [p[i]] for a [uint8_t* p]. *)
Definition load8 (a : addr) : prog byte :=
  fun w => (mem w a,
            World (mem w) (stdout w) (accesses w ++ [Load a])).

Definition poke (m : memory) (a : addr) (b : byte) : memory :=
  fun a' => if a' =? a then b else m a'.

Definition store8 (a : addr) (b : byte) : prog unit :=
  fun w => (tt,
            World (poke (mem w) a b) (stdout w) (accesses w ++ [Store a b])).

Fixpoint store_bytes (a : addr) (bs : list byte) : prog unit :=
  match bs with
  | [] => ret tt
  | b :: bs' => store8 a b ;; store_bytes (a + 1) bs'
  end.

(** *** printf, as far as the program uses it *)

Inductive directive :=
| Lit (s : string)     (* ordinary characters, copied unchanged *)
| AltHex.              (* %#x *)

(** The [x] conversion of an [unsigned int]. *)
Definition fmt_x (v : Z) : string := digits 16 8 (v mod 2 ^ 32) EmptyString.

(** The [#] flag: a nonzero result has 0x prefixed to it. *)
Definition fmt_alt_x (v : Z) : string :=
  if v mod 2 ^ 32 =? 0 then fmt_x v else String "0" (String "x" (fmt_x v)).

Fixpoint format (ds : list directive) (args : list Z) : string :=
  match ds with
  | [] => EmptyString
  | Lit s :: ds' => (s ++ format ds' args)%string
  | AltHex :: ds' =>
      match args with
      | [] => format ds' []
      | v :: args' => (fmt_alt_x v ++ format ds' args')%string
      end
  end.

Definition printf (ds : list directive) (args : list Z) : prog unit :=
  fun w => (tt, World (mem w) (stdout w ++ format ds args)%string (accesses w)).

(** *** Control *)

(** [for (int i = lo; i < hi; ++i) body] *)
Fixpoint for_from (n : nat) (i : Z) (body : Z -> prog unit) : prog unit :=
  match n with
  | O => ret tt
  | S n' => body i ;; for_from n' (i + 1) body
  end.

Definition for_lt (lo hi : Z) (body : Z -> prog unit) : prog unit :=
  for_from (Z.to_nat (hi - lo)) lo body.

Fixpoint block (stmts : list (prog unit)) : prog unit :=
  match stmts with
  | [] => ret tt
  | s :: stmts' => s ;; block stmts'
  end.

(** *** The program *)

(** A [long double] literal, by its exact decimal value. *)
Definition literal := Q.

Definition lit_42_24 : literal := 4224 # 100.
Definition lit_64_125 : literal := 64125 # 1000.

Section Program.

(** The bytes a store of a [long double] writes, lowest address first.
    They depend on the platform's floating-point format. *)
Variable encode : literal -> list byte.

(** The address of the local [long double i]. *)
Variable addr_i : addr.

(** The statements of [main], in order.  The loop counter [int i] hides the
    [long double i] inside the loops only. *)
Definition main_body : list (prog unit) :=
  let unsafe := addr_i in
  [ store_bytes addr_i (encode lit_42_24);
    for_lt 0 16 (fun i =>
      b <- load8 (unsafe + i) ;; printf [AltHex; Lit " "] [byte_val b]);
    printf [Lit nl] [];
    store_bytes addr_i (encode lit_64_125);
    for_lt 0 16 (fun i =>
      b <- load8 (unsafe + i) ;; printf [AltHex; Lit " "] [byte_val b]);
    printf [Lit nl] [] ].

Definition main : prog unit := block main_body.

(** [main] stopped after its first [k] statements. *)
Definition main_upto (k : nat) : prog unit := block (firstn k main_body).

End Program.

Definition start (m : memory) : world := World m EmptyString [].

(** *** Vocabulary for the properties *)

(** [span i n] is [i, i+1, ..., i+n-1], the values a loop counter takes. *)
Fixpoint span (i : Z) (n : nat) : list Z :=
  match n with
  | O => []
  | S n' => i :: span (i + 1) n'
  end.

(** The addresses [unsafe + 0 .. unsafe + 15] and the bytes found there. *)
Definition window (a : addr) : list addr := List.map (fun i => a + i) (span 0 16).

Definition object (a : addr) (m : memory) : list byte := List.map m (window a).

(** Memory after storing [bs] from [a] upwards, and the stores made. *)
Fixpoint write (m : memory) (a : addr) (bs : list byte) : memory :=
  match bs with
  | [] => m
  | b :: bs' => write (poke m a b) (a + 1) bs'
  end.

Fixpoint stores (a : addr) (bs : list byte) : list access :=
  match bs with
  | [] => []
  | b :: bs' => Store a b :: stores (a + 1) bs'
  end.

Definition is_store (x : access) : bool :=
  match x with Store _ _ => true | Load _ => false end.

(** The token printed for one byte, and a line of them. *)
Definition token_of (b : byte) : string := fmt_alt_x (byte_val b).

Definition render (bs : list byte) : string :=
  concat (List.map (fun b => token_of b ++ String space EmptyString)%string bs).

(** Reading a hexadecimal numeral back, with or without the 0x prefix. *)
Definition hex_val (c : ascii) : option Z :=
  let n := Z.of_nat (Ascii.nat_of_ascii c) in
  if (48 <=? n) && (n <=? 57) then Some (n - 48)
  else if (97 <=? n) && (n <=? 102) then Some (n - 87)
  else None.

Fixpoint parse_digits (s : string) (acc : Z) : option Z :=
  match s with
  | EmptyString => Some acc
  | String c s' =>
      match hex_val c with
      | Some d => parse_digits s' (16 * acc + d)
      | None => None
      end
  end.

Definition parse_hex (s : string) : option Z :=
  match s with
  | EmptyString => None
  | String "0" (String "x" (String c r)) => parse_digits (String c r) 0
  | String _ _ => parse_digits s 0
  end.

Definition has_0x_prefix (s : string) : bool :=
  match s with
  | String "0" (String "x" _) => true
  | _ => false
  end.

(** Memory that holds zero everywhere. *)
Definition zeroed : memory := fun _ => x00.

(** *** The x86-64 System V format of [long double]

    The x87 double extended format: a 64-bit significand with an explicit
    leading bit, a 15-bit biased exponent and a sign bit, in ten bytes,
    little endian.  The six remaining bytes of the 16-byte slot are padding
    that a store leaves alone.  A literal is rounded to the nearest
    significand, ties to even; only zero and values in the normal range are
    covered, which is where both literals of the program lie. *)

Fixpoint le_bytes (n : nat) (v : Z) : list byte :=
  match n with
  | O => []
  | S n' => byte_of_Z v :: le_bytes n' (v / 256)
  end.

(** [scaled n d k] is the quotient and remainder of [n/d * 2^k]. *)
Definition scaled (n d k : Z) : Z * Z * Z :=
  let n' := if 0 <=? k then n * 2 ^ k else n in
  let d' := if 0 <=? k then d else d * 2 ^ (- k) in
  (n' / d', n' mod d', d').

Definition round_half_even (qrd : Z * Z * Z) : Z :=
  let '(q, r, d) := qrd in
  if (d <? 2 * r) || ((d =? 2 * r) && Z.odd q) then q + 1 else q.

Definition x87_extended (x : literal) : list byte :=
  let n := Z.abs (Qnum x) in
  let d := Z.pos (Qden x) in
  let sign := if Qnum x <? 0 then 32768 else 0 in
  if n =? 0 then le_bytes 8 0 ++ le_bytes 2 sign
  else
    let e0 := Z.log2 n - Z.log2 d in
    let e := if n * 2 ^ (Z.max 0 (- e0)) <? d * 2 ^ (Z.max 0 e0)
             then e0 - 1 else e0 in
    let m := round_half_even (scaled n d (63 - e)) in
    let '(m, e) := if m =? 2 ^ 64 then (2 ^ 63, e + 1) else (m, e) in
    le_bytes 8 m ++ le_bytes 2 (sign + e + 16383).

End PrintLongDouble.

(** ** debugger/test_targets/multi_threaded2.cpp *)

Module MultiThreaded2.

Import Text.

Local Open Scope nat_scope.

(** [operator<<] on an [int]: decimal, with a sign when negative. *)
Definition fmt_d (v : Z) : string :=
  if (v <? 0)%Z then String "-" (digits 10 10 (- v)%Z EmptyString)
  else digits 10 10 v EmptyString.

(** *** The thread routine *)

(** Control points of [say_hi]. *)
Inductive label :=
| L_while            (* while (true) *)
| L_put_thread       (* std::cout << "Thread " *)
| L_put_tid          (*           << gettid() *)
| L_put_reporting    (*           << " reporting in\n"; *)
| L_sleep            (* sleep(1); *)
| L_return.          (* past the closing brace *)

Definition is_returned (l : label) : bool :=
  match l with L_return => true | _ => false end.

(** A start routine, one step at a time: from the caller's thread id and
    a control point to the next control point and the text the step writes
    to [std::cout], if any. *)
Definition routine := Z -> label -> label * option string.

Definition say_hi : routine := fun tid l =>
  match l with
  | L_while => (if true then L_put_thread else L_return, None)
  | L_put_thread => (L_put_tid, Some "Thread "%string)
  | L_put_tid => (L_put_reporting, Some (fmt_d tid))
  | L_put_reporting => (L_sleep, Some (" reporting in" ++ nl)%string)
  | L_sleep => (L_while, None)
  | L_return => (L_return, None)
  end.

(** *** The process *)

Record thread := Thread {
  tid : Z;
  start_routine : routine;
  at_label : label
}.

(** Control points of [main]. *)
Inductive main_label :=
| M_create (k : nat)    (* first loop, at element k of the vector *)
| M_join (k : nat)      (* second loop, at element k of the vector *)
| M_in_join (k : nat)   (* inside pthread_join on element k *)
| M_exit.               (* returned from main *)

Inductive call :=
| Pthread_create (k : nat) (start : routine)
| Pthread_join (k : nat).

Record state := State {
  at_main : main_label;
  handles : list (option nat);   (* std::vector<pthread_t> threads *)
  pool : list thread;            (* the spawned threads, oldest first *)
  out : list (nat * string);     (* writes to std::cout: by whom, what *)
  calls : list call;             (* pthread calls main has made *)
  joined : list nat              (* elements whose pthread_join returned *)
}.

Definition goto (l : main_label) (s : state) : state :=
  State l (handles s) (pool s) (out s) (calls s) (joined s).

Definition log_call (c : call) (s : state) : state :=
  State (at_main s) (handles s) (pool s) (out s) (calls s ++ [c]) (joined s).

Section Process.

(** The thread id the kernel gives to the j-th thread the process spawns. *)
Variable tids : nat -> Z.

(** [pthread_create(&threads[k], nullptr, start, nullptr)], assumed to
    succeed: the new thread is ready at the top of its routine and the
    handle refers to it. *)
Definition pthread_create (k : nat) (start : routine) (s : state) : state :=
  let j := length (pool s) in
  State (at_main s)
        (<[k := Some j]> (handles s))
        (pool s ++ [Thread (tids j) start L_while])
        (out s) (calls s) (joined s).

(** Whether the thread behind element [k] has terminated, which is when
    [pthread_join(threads[k], nullptr)] returns. *)
Definition terminated (k : nat) (s : state) : bool :=
  match handles s !! k with
  | Some (Some j) =>
      match pool s !! j with
      | Some th => is_returned (at_label th)
      | None => false
      end
  | _ => false
  end.

(** One step of main; [None] when it cannot move. *)
Definition main_step (s : state) : option state :=
  match at_main s with
  | M_create k =>
      if k <? length (handles s)
      then Some (goto (M_create (S k))
                   (pthread_create k say_hi
                      (log_call (Pthread_create k say_hi) s)))
      else Some (goto (M_join 0) s)
  | M_join k =>
      if k <? length (handles s)
      then Some (goto (M_in_join k) (log_call (Pthread_join k) s))
      else Some (goto M_exit s)
  | M_in_join k =>
      if terminated k s
      then Some (State (M_join (S k)) (handles s) (pool s) (out s)
                   (calls s) (joined s ++ [k]))
      else None
  | M_exit => None
  end.

(** One step of the j-th spawned thread; [None] when there is no such
    thread, when it has returned, or when the process has exited. *)
Definition thread_step (j : nat) (s : state) : option state :=
  match at_main s, pool s !! j with
  | M_exit, _ => None
  | _, None => None
  | _, Some th =>
      if is_returned (at_label th) then None
      else
        let (l, o) := start_routine th (tid th) (at_label th) in
        Some (State (at_main s) (handles s)
                (<[j := Thread (tid th) (start_routine th) l]> (pool s))
                (out s ++ match o with Some t => [(j, t)] | None => [] end)
                (calls s) (joined s))
  end.

Inductive actor :=
| Main
| Spawned (j : nat).

Definition step (a : actor) (s : state) : option state :=
  match a with
  | Main => main_step s
  | Spawned j => thread_step j s
  end.

(** An actor that cannot move when it is chosen stays where it is. *)
Definition step_or_stay (a : actor) (s : state) : state :=
  match step a s with
  | Some s' => s'
  | None => s
  end.

Fixpoint run (sched : list actor) (s : state) : state :=
  match sched with
  | [] => s
  | a :: sched' => run sched' (step_or_stay a s)
  end.

(** [std::vector<pthread_t> threads(10);] and nothing else yet. *)
Definition init : state :=
  State (M_create 0) (replicate 10 None) [] [] [] [].

End Process.

(** What appears on standard output. *)
Definition stdout (s : state) : string := concat (List.map snd (out s)).

(** *** Vocabulary for the properties *)

(** The pieces the j-th spawned thread has written, and their text. *)
Definition frags (j : nat) (s : state) : list string :=
  List.map snd (List.filter (fun e => Nat.eqb (fst e) j) (out s)).

Definition written_by (j : nat) (s : state) : string := concat (frags j s).

(** The line a thread with id [t] reports, without its newline. *)
Definition report (t : Z) : string :=
  ("Thread " ++ fmt_d t ++ " reporting in")%string.

(** The three writes of one round of the loop, [n] rounds of them, and the
    writes of the round that is under way at a control point. *)
Definition round (t : Z) : list string :=
  ["Thread "%string; fmt_d t; (" reporting in" ++ nl)%string].

Fixpoint rounds (t : Z) (n : nat) : list string :=
  match n with
  | O => []
  | S n' => round t ++ rounds t n'
  end.

Definition partial (t : Z) (l : label) : list string :=
  match l with
  | L_put_tid => ["Thread "%string]
  | L_put_reporting => ["Thread "%string; fmt_d t]
  | _ => []
  end.

Fixpoint copies (n : nat) (x : string) : string :=
  match n with
  | O => EmptyString
  | S n' => (x ++ copies n' x)%string
  end.

(** The j-th spawned thread has written at least one whole line. *)
Definition reported (tids : nat -> Z) (j : nat) (s : state) : Prop :=
  exists rest, written_by j s = (report (tids j) ++ nl ++ rest)%string.

(** A routine run on its own for [n] steps from [l]: where it ends up and
    what it has written. *)
Fixpoint alone (r : routine) (t : Z) (n : nat) (l : label)
  : label * list string :=
  match n with
  | O => (l, [])
  | S n' =>
      let (l', o) := r t l in
      let (l'', os) := alone r t n' l' in
      (l'', match o with Some x => x :: os | None => os end)
  end.

(** How often main is chosen in a schedule, and where that takes it. *)
Definition is_main (a : actor) : bool :=
  match a with Main => true | Spawned _ => false end.

Definition main_moves (sched : list actor) : nat :=
  List.length (List.filter is_main sched).

Definition main_at (c : nat) : main_label :=
  if c <=? 10 then M_create c
  else if c =? 11 then M_join 0
  else M_in_join 0.

Definition is_create (c : call) : bool :=
  match c with Pthread_create _ _ => true | Pthread_join _ => false end.

Definition is_join (c : call) : bool :=
  match c with Pthread_join _ => true | Pthread_create _ _ => false end.

(** The first [n] choices of an unending schedule. *)
Definition upto (f : nat -> actor) (n : nat) : list actor :=
  List.map f (seq 0 n).

(** An actor is chosen again and again. *)
Definition recurs (f : nat -> actor) (a : actor) : Prop :=
  forall n, exists m, n <= m /\ f m = a.

(** Main and the ten threads in turn, for ever. *)
Definition round_robin (n : nat) : actor :=
  match n mod 11 with
  | O => Main
  | S j => Spawned j
  end.

(** Sample thread ids. *)
Definition tids0 (j : nat) : Z := (1000 + Z.of_nat j)%Z.

(** Sample schedules.  In each, main first spawns threads.  In [in_turn]
    the first thread then goes once round its loop before the second one
    does; in [garbled] the two take turns within the round; in
    [cut_short] the first thread goes twice round its loop while the
    others have not been chosen yet. *)
Definition in_turn : list actor :=
  [Main; Main;
   Spawned 0; Spawned 0; Spawned 0; Spawned 0;
   Spawned 1; Spawned 1; Spawned 1; Spawned 1].

Definition garbled : list actor :=
  [Main; Main;
   Spawned 0; Spawned 1; Spawned 0; Spawned 1;
   Spawned 0; Spawned 0; Spawned 1; Spawned 1].

Definition cut_short : list actor :=
  repeat Main 12 ++ repeat (Spawned 0) 9.

(** *** Invariants of the process *)

(** Main after [c] moves. *)
Definition main_ok (c : nat) (s : state) : Prop :=
  let n := Nat.min 10 c in
  at_main s = main_at c /\
  handles s = List.map Some (seq 0 n) ++ replicate (10 - n) None /\
  List.length (pool s) = n /\
  calls s = List.map (fun k => Pthread_create k say_hi) (seq 0 n)
            ++ (if 12 <=? c then [Pthread_join 0] else []) /\
  joined s = [].

(** The j-th spawned thread, once it exists, runs [say_hi] under its own
    id, has not returned, and has written whole rounds followed by the
    writes of the round under way. *)
Definition thread_ok (tids : nat -> Z) (j : nat) (s : state) : Prop :=
  match pool s !! j with
  | None => frags j s = []
  | Some th =>
      tid th = tids j /\
      start_routine th = say_hi /\
      at_label th <> L_return /\
      exists n,
        frags j s = rounds (tids j) n ++ partial (tids j) (at_label th) /\
        (at_label th = L_sleep -> 1 <= n)
  end.

Definition ok (tids : nat -> Z) (c : nat) (s : state) : Prop :=
  main_ok c s /\ forall j, thread_ok tids j s.

(** A measure of how far the j-th thread is into its first line. *)
Definition rank (j : nat) (s : state) : nat :=
  match pool s !! j with
  | None => 0
  | Some th =>
      1 + 2 * List.length (frags j s)
      + match at_label th with L_while | L_sleep => 0 | _ => 1 end
  end.

(** *** Reading a report back *)





(** All pthread calls main can ever make, in program order. *)
Definition all_calls : list call :=
  List.map (fun k => Pthread_create k say_hi) (seq 0 10) ++ [Pthread_join 0].

(** How many steps the j-th thread has taken, up to a constant: it grows
    with each of them. *)
Definition progress (j : nat) (s : state) : nat :=
  match pool s !! j with
  | None => 0
  | Some th =>
      1 + 2 * List.length (frags j s)
      + match at_label th with
        | L_put_thread => 2
        | L_while | L_put_tid => 1
        | L_put_reporting | L_sleep | L_return => 0
        end
  end.

End MultiThreaded2.


(** ** Facts about splitting text *)

Module TextFacts.

Import Text.

Local Open Scope string_scope.

Lemma append_assoc (s t u : string) : (s ++ t) ++ u = s ++ (t ++ u).
Proof. induction s as [|a s IH]; simpl; [reflexivity | now rewrite IH]. Qed.

Lemma append_empty_r (s : string) : s ++ "" = s.
Proof. induction s as [|a s IH]; simpl; [reflexivity | now rewrite IH]. Qed.

Lemma occurs_app c (s t : string) :
  occurs c (s ++ t) = occurs c s || occurs c t.
Proof.
  induction s as [|a s IH]; simpl; [reflexivity |].
  rewrite IH. now rewrite orb_assoc.
Qed.

Lemma split_on_not_nil c s : split_on c s <> [].
Proof.
  destruct s as [|a s]; simpl; [discriminate |].
  destruct (Ascii.eqb a c); [discriminate |].
  destruct (split_on c s); discriminate.
Qed.

(** A piece without the separator, followed by the separator, is split off
    whole. *)
Lemma split_on_sep c (s t : string) :
  occurs c s = false ->
  split_on c (s ++ String c t) = s :: split_on c t.
Proof.
  induction s as [|a s IH]; simpl; intros H.
  - now rewrite Ascii.eqb_refl.
  - apply orb_false_iff in H as [Ha Hs].
    rewrite Ha, (IH Hs). reflexivity.
Qed.

Lemma split_on_absent c (s : string) :
  occurs c s = false -> split_on c s = [s].
Proof.
  induction s as [|a s IH]; simpl; intros H; [reflexivity |].
  apply orb_false_iff in H as [Ha Hs].
  now rewrite Ha, (IH Hs).
Qed.

Lemma lines_two (l1 l2 : string) :
  occurs newline l1 = false -> occurs newline l2 = false ->
  lines (l1 ++ nl ++ l2 ++ nl) = [l1; l2].
Proof.
  intros H1 H2. unfold lines, nl. simpl append.
  rewrite (split_on_sep _ _ _ H1), (split_on_sep _ _ _ H2).
  reflexivity.
Qed.

Lemma tokens_cons (t r : string) :
  clean t = true ->
  tokens (t ++ String space r) = t :: tokens r.
Proof.
  unfold clean, tokens. intros H.
  apply andb_true_iff in H as [H Hn]. apply andb_true_iff in H as [Hne Hs].
  apply negb_true_iff in Hs.
  rewrite (split_on_sep _ _ _ Hs). simpl. now rewrite Hne.
Qed.

Lemma tokens_concat {A} (f : A -> string) (xs : list A) :
  (forall x, clean (f x) = true) ->
  tokens (concat (List.map (fun x => f x ++ String space "") xs))
  = List.map f xs.
Proof.
  intros Hf. induction xs as [|x xs IH]; [reflexivity |].
  cbn [List.map concat]. rewrite append_assoc. simpl append.
  rewrite (tokens_cons _ _ (Hf x)). now rewrite IH.
Qed.

Lemma occurs_concat {A} c (f : A -> string) (xs : list A) :
  (forall x, occurs c (f x) = false) ->
  occurs c (concat (List.map f xs)) = false.
Proof.
  intros Hf. induction xs as [|x xs IH]; [reflexivity |].
  cbn [List.map concat]. now rewrite occurs_app, Hf, IH.
Qed.

End TextFacts.


(** ** Properties of print_longdouble *)

Module PrintLongDoubleFacts.

Import Text TextFacts PrintLongDouble.

(** *** The printed tokens *)

Lemma token_clean (b : byte) : clean (token_of b) = true.
Proof. destruct b; vm_compute; reflexivity. Qed.

Lemma token_parses (b : byte) : parse_hex (token_of b) = Some (byte_val b).
Proof. destruct b; vm_compute; reflexivity. Qed.

Lemma token_prefix (b : byte) :
  has_0x_prefix (token_of b) = negb (byte_val b =? 0).
Proof. destruct b; vm_compute; reflexivity. Qed.

Lemma token_zero (b : byte) :
  String.eqb (token_of b) "0" = (byte_val b =? 0).
Proof. destruct b; vm_compute; reflexivity. Qed.

Lemma render_no_newline (bs : list byte) : occurs newline (render bs) = false.
Proof.
  unfold render. apply occurs_concat. intros b.
  rewrite occurs_app. pose proof (token_clean b) as H.
  unfold clean in H. apply andb_true_iff in H as [_ H].
  apply negb_true_iff in H. now rewrite H.
Qed.

Lemma tokens_render (bs : list byte) : tokens (render bs) = List.map token_of bs.
Proof. unfold render. apply tokens_concat, token_clean. Qed.

(** *** Running the statements *)

Lemma store_bytes_run (bs : list byte) : forall a w,
  store_bytes a bs w
  = (tt, World (write (mem w) a bs) (stdout w) (accesses w ++ stores a bs)).
Proof.
  induction bs as [|b bs IH]; intros a w; simpl.
  - unfold ret. rewrite app_nil_r. now destruct w.
  - unfold bind, store8. rewrite IH. simpl. now rewrite <- app_assoc.
Qed.

(** The print loop reads the bytes at [p + i] for the values [i] of its
    counter, in order, and appends their tokens to the output. *)
Lemma dump_run (p : addr) (n : nat) : forall i w,
  for_from n i (fun i =>
    bind (load8 (p + i)) (fun b => printf [AltHex; Lit " "] [byte_val b])) w
  = (tt, World (mem w)
           (stdout w ++ render (List.map (mem w) (List.map (fun i => p + i) (span i n))))
           (accesses w ++ List.map Load (List.map (fun i => p + i) (span i n)))).
Proof.
  induction n as [|n IH]; intros i w; simpl.
  - unfold ret, render. simpl. rewrite append_empty_r, app_nil_r. now destruct w.
  - unfold bind at 1. unfold bind at 1. unfold load8, printf. simpl.
    rewrite IH. simpl. unfold render. cbn [List.map concat].
    rewrite !append_assoc. rewrite <- app_assoc. simpl. reflexivity.
Qed.

Lemma main_run encode a m :
  exec (main encode a) (start m)
  = World (write (write m a (encode lit_42_24)) a (encode lit_64_125))
      (render (object a (write m a (encode lit_42_24))) ++ nl ++
       render (object a (write (write m a (encode lit_42_24)) a
                           (encode lit_64_125))) ++ nl)
      (stores a (encode lit_42_24) ++ List.map Load (window a)
       ++ stores a (encode lit_64_125) ++ List.map Load (window a)).
Proof.
  unfold exec, main, main_body. cbn [block].
  unfold bind at 1. rewrite store_bytes_run.
  unfold bind at 1. unfold for_lt. rewrite dump_run.
  unfold bind at 1. unfold printf at 1.
  unfold bind at 1. rewrite store_bytes_run.
  unfold bind at 1. rewrite dump_run.
  unfold bind at 1. unfold printf at 1. unfold ret.
  cbn [snd mem stdout accesses start format].
  change (Z.to_nat (16 - 0)) with 16%nat.
  fold (window a). unfold object.
  rewrite !append_empty_r, !append_assoc. cbn [app].
  rewrite <- !app_assoc. reflexivity.
Qed.

(** The memory after each statement of [main]. *)
Lemma upto_run encode a m :
  let m1 := write m a (encode lit_42_24) in
  let m2 := write m1 a (encode lit_64_125) in
  mem (exec (main_upto encode a 1) (start m)) = m1 /\
  mem (exec (main_upto encode a 2) (start m)) = m1 /\
  mem (exec (main_upto encode a 3) (start m)) = m1 /\
  mem (exec (main_upto encode a 4) (start m)) = m2 /\
  mem (exec (main_upto encode a 5) (start m)) = m2 /\
  mem (exec (main_upto encode a 6) (start m)) = m2 /\
  main_upto encode a 6 = main encode a.
Proof.
  intros m1 m2.
  unfold exec, main, main_upto, main_body. cbn [firstn block].
  unfold for_lt, printf, ret.
  repeat split;
    repeat (unfold bind at 1; rewrite ?store_bytes_run, ?dump_run; cbn [snd mem]);
    reflexivity.
Qed.

(** *** What a store leaves in the slot *)

Lemma write_below (bs : list byte) : forall m a x,
  x < a -> write m a bs x = m x.
Proof.
  induction bs as [|b bs IH]; intros m a x Hx; simpl; [reflexivity |].
  rewrite IH by lia. unfold poke.
  destruct (Z.eqb_spec x a); [lia | reflexivity].
Qed.

(** Byte [i] of the slot is byte [i] of what was stored, and where the
    stored bytes end it is what memory held before. *)
Lemma write_at (bs : list byte) : forall m a i,
  0 <= i -> write m a bs (a + i) = nth (Z.to_nat i) bs (m (a + i)).
Proof.
  induction bs as [|b bs IH]; intros m a i Hi; simpl.
  - now destruct (Z.to_nat i).
  - destruct (Z.eq_dec i 0) as [-> | Hne].
    + rewrite Z.add_0_r. rewrite write_below by lia.
      unfold poke. now rewrite Z.eqb_refl.
    + replace (a + i) with (a + 1 + (i - 1)) by lia.
      rewrite IH by lia.
      replace (Z.to_nat i) with (S (Z.to_nat (i - 1))) by lia.
      unfold poke. destruct (Z.eqb_spec (a + 1 + (i - 1)) a); [lia | reflexivity].
Qed.

Lemma span_lower (n : nat) : forall i x, In x (span i n) -> i <= x.
Proof.
  induction n as [|n IH]; intros i x; simpl; [tauto |].
  intros [<- | H]; [lia |]. apply IH in H. lia.
Qed.

Lemma object_write (m : memory) (a : addr) (bs : list byte) :
  object a (write m a bs)
  = List.map (fun i => nth (Z.to_nat i) bs (m (a + i))) (span 0 16).
Proof.
  unfold object, window. rewrite List.map_map.
  apply List.map_ext_in. intros i Hi.
  apply write_at. now apply span_lower in Hi.
Qed.

(** The slot after both stores, byte by byte. *)
Lemma object_write_twice (m : memory) (a : addr) (bs1 bs2 : list byte) :
  object a (write (write m a bs1) a bs2)
  = List.map (fun i => nth (Z.to_nat i) bs2 (nth (Z.to_nat i) bs1 (m (a + i))))
      (span 0 16).
Proof.
  rewrite object_write. apply List.map_ext_in. intros i Hi.
  apply span_lower in Hi. now rewrite write_at.
Qed.

Lemma object_length (a : addr) (m : memory) : List.length (object a m) = 16%nat.
Proof. reflexivity. Qed.

Lemma filter_stores_stores a bs :
  List.filter is_store (stores a bs) = stores a bs.
Proof.
  revert a. induction bs as [|b bs IH]; intros a; simpl; [reflexivity |].
  now rewrite IH.
Qed.

Lemma filter_stores_loads (l : list addr) :
  List.filter is_store (List.map Load l) = [].
Proof. induction l as [|x l IH]; simpl; [reflexivity | exact IH]. Qed.

Lemma filter_loads_stores a bs :
  List.filter (fun x => negb (is_store x)) (stores a bs) = [].
Proof.
  revert a. induction bs as [|b bs IH]; intros a; simpl; [reflexivity |].
  now rewrite IH.
Qed.

Lemma filter_loads_loads (l : list addr) :
  List.filter (fun x => negb (is_store x)) (List.map Load l) = List.map Load l.
Proof. induction l as [|x l IH]; simpl; [reflexivity | now rewrite IH]. Qed.

(** The output of [main], line by line. *)
Lemma main_lines encode a m :
  let m1 := write m a (encode lit_42_24) in
  let m2 := write m1 a (encode lit_64_125) in
  let w := exec (main encode a) (start m) in
  stdout w = (render (object a m1) ++ nl ++ render (object a m2) ++ nl)%string /\
  lines (stdout w) = [render (object a m1); render (object a m2)] /\
  tokens (render (object a m1)) = List.map token_of (object a m1) /\
  tokens (render (object a m2)) = List.map token_of (object a m2).
Proof.
  intros m1 m2 w. unfold w. rewrite main_run. cbn [stdout].
  split; [reflexivity |].
  split; [apply lines_two; apply render_no_newline |].
  split; apply tokens_render.
Qed.

(** On x86-64, started at address 0 in zeroed memory. *)
Example x86_64_output :
  stdout (exec (main x87_extended 0) (start zeroed))
  = ("0xc3 0xf5 0x28 0x5c 0x8f 0xc2 0xf5 0xa8 0x4 0x40 0 0 0 0 0 0 " ++ nl ++
     "0 0 0 0 0 0 0x40 0x80 0x5 0x40 0 0 0 0 0 0 " ++ nl)%string.
Proof. vm_compute. reflexivity. Qed.

(** *** The claims *)

(** C1: the program prints exactly two lines, and each line holds exactly
    16 space-separated tokens, each a hexadecimal numeral of one byte that
    shows the layout in memory of a floating-point constant: read back,
    the tokens of the first line are the bytes stored for 42.24 and the
    tokens of the second line the bytes stored for 64.125, each followed,
    where the stored bytes end before the 16th, by what the slot held
    before; these are the 16 bytes of the slot after the first store and
    at the end of the run. *)
Theorem prints_two_lines_of_16_hex_tokens encode a m :
  let w := exec (main encode a) (start m) in
  let slot1 :=
    List.map (fun i => nth (Z.to_nat i) (encode lit_42_24) (m (a + i)))
      (span 0 16) in
  let slot2 :=
    List.map (fun i => nth (Z.to_nat i) (encode lit_64_125)
                         (nth (Z.to_nat i) (encode lit_42_24) (m (a + i))))
      (span 0 16) in
  exists l1 l2,
    stdout w = (l1 ++ nl ++ l2 ++ nl)%string /\
    lines (stdout w) = [l1; l2] /\
    List.length (tokens l1) = 16%nat /\
    List.length (tokens l2) = 16%nat /\
    List.map parse_hex (tokens l1)
    = List.map (fun b => Some (byte_val b)) slot1 /\
    List.map parse_hex (tokens l2)
    = List.map (fun b => Some (byte_val b)) slot2 /\
    object a (mem (exec (main_upto encode a 1) (start m))) = slot1 /\
    object a (mem w) = slot2.
Proof.
  intros w slot1 slot2.
  destruct (main_lines encode a m) as (Hout & Hlines & Ht1 & Ht2).
  destruct (upto_run encode a m) as (H1 & _ & _ & _ & _ & H6 & Hmain).
  fold w in Hout, Hlines. unfold w at 3. rewrite <- Hmain, H1, H6.
  rewrite object_write_twice, object_write. fold slot1 slot2.
  eexists _, _. split; [exact Hout |]. split; [exact Hlines |].
  rewrite Ht1, Ht2, object_write_twice, object_write.
  fold slot1 slot2.
  rewrite !List.length_map, !List.map_map.
  repeat split; try reflexivity;
    apply List.map_ext; intros b; apply token_parses.
Qed.

(** Every run prints two lines of 16 tokens. *)
Lemma main_shape encode a m :
  shape (stdout (exec (main encode a) (start m))) = [16%nat; 16%nat].
Proof.
  destruct (main_lines encode a m) as (_ & Hlines & Ht1 & Ht2).
  unfold shape. rewrite Hlines. cbn [List.map].
  now rewrite Ht1, Ht2, !List.length_map, !object_length.
Qed.

(** C6, as stated, fails: on x86-64 the slot holds other bytes at the end
    of [main] than right after the initialisation. *)
Lemma long_double_is_reassigned :
  object 0 (mem (exec (main x87_extended 0) (start zeroed)))
  <> object 0 (mem (exec (main_upto x87_extended 0 1) (start zeroed))).
Proof. vm_compute. discriminate. Qed.

(** C6, amended: the variable is stored to twice, by its initialisation
    with 42.24 and by the assignment of 64.125 between the two loops, and
    by nothing else: the loops and the newline prints leave all of memory
    as it is, and the only stores of the run are those two. *)
Theorem long_double_changes_only_at_reassignment encode a m :
  let after k := mem (exec (main_upto encode a k) (start m)) in
  let w := exec (main encode a) (start m) in
  after 1%nat = write m a (encode lit_42_24) /\
  after 2%nat = after 1%nat /\
  after 3%nat = after 1%nat /\
  after 4%nat = write (after 1%nat) a (encode lit_64_125) /\
  after 5%nat = after 4%nat /\
  after 6%nat = after 4%nat /\
  mem w = after 4%nat /\
  List.filter is_store (accesses w)
  = stores a (encode lit_42_24) ++ stores a (encode lit_64_125).
Proof.
  intros after w.
  destruct (upto_run encode a m) as (H1 & H2 & H3 & H4 & H5 & H6 & Hmain).
  unfold after. rewrite H1, H2, H3, H4, H5, H6.
  repeat (split; [reflexivity |]).
  unfold w. rewrite main_run. cbn [mem accesses].
  split; [reflexivity |].
  rewrite !List.filter_app, !filter_stores_stores, !filter_stores_loads.
  now rewrite !app_nil_r.
Qed.

(** C9: both loops load from the same 16 addresses, those of the slot, in
    the same order, and each line shows what the slot holds when its loop
    runs: the first line the bytes stored for 42.24, the second line the
    bytes stored for 64.125 (beyond the last stored byte, what memory held
    before). *)
Theorem both_loops_dump_the_same_slot encode a m :
  let w := exec (main encode a) (start m) in
  let slot1 :=
    List.map (fun i => nth (Z.to_nat i) (encode lit_42_24) (m (a + i)))
      (span 0 16) in
  let slot2 :=
    List.map (fun i => nth (Z.to_nat i) (encode lit_64_125)
                         (nth (Z.to_nat i) (encode lit_42_24) (m (a + i))))
      (span 0 16) in
  List.filter (fun x => negb (is_store x)) (accesses w)
  = List.map Load (window a) ++ List.map Load (window a) /\
  exists l1 l2,
    lines (stdout w) = [l1; l2] /\
    tokens l1 = List.map token_of slot1 /\
    tokens l2 = List.map token_of slot2.
Proof.
  intros w slot1 slot2.
  destruct (main_lines encode a m) as (_ & Hlines & Ht1 & Ht2).
  split.
  - unfold w. rewrite main_run. cbn [accesses].
    rewrite !List.filter_app, !filter_loads_stores, !filter_loads_loads.
    reflexivity.
  - eexists _, _. split; [exact Hlines |].
    rewrite Ht1, Ht2. rewrite !object_write.
    split; [reflexivity |].
    f_equal. unfold slot2. apply List.map_ext_in. intros i Hi.
    apply span_lower in Hi. now rewrite write_at.
Qed.

(** On x86-64 the first byte of 64.125 is zero, so the second line starts
    with a bare 0. *)
Lemma x86_64_second_line_has_bare_zero a m :
  exists l1 l2 rest,
    lines (stdout (exec (main x87_extended a) (start m))) = [l1; l2] /\
    tokens l2 = "0"%string :: rest.
Proof.
  destruct (main_lines x87_extended a m) as (_ & Hlines & _ & Ht2).
  eexists _, _, _. split; [exact Hlines |].
  rewrite Ht2, object_write. reflexivity.
Qed.

(** C10: each token is the alternate-form hexadecimal numeral of the byte
    it shows; that numeral is the bare 0 exactly when the byte is zero and
    carries the 0x prefix exactly when the byte is not zero; and on x86-64
    a bare 0 is printed in every run, so not every token has the prefix. *)
Theorem zero_bytes_print_without_prefix :
  (forall encode a m,
     let m1 := write m a (encode lit_42_24) in
     let m2 := write m1 a (encode lit_64_125) in
     exists l1 l2,
       lines (stdout (exec (main encode a) (start m))) = [l1; l2] /\
       tokens l1 = List.map token_of (object a m1) /\
       tokens l2 = List.map token_of (object a m2)) /\
  (forall b, byte_val b = 0 -> token_of b = "0"%string) /\
  (forall b, byte_val b <> 0 ->
     has_0x_prefix (token_of b) = true /\ token_of b <> "0"%string) /\
  has_0x_prefix "0" = false /\
  (forall a m, exists l1 l2,
     lines (stdout (exec (main x87_extended a) (start m))) = [l1; l2] /\
     In "0"%string (tokens l2)).
Proof.
  split; [| split; [| split; [| split]]].
  - intros encode a m m1 m2.
    destruct (main_lines encode a m) as (_ & Hlines & Ht1 & Ht2).
    eexists _, _. eauto.
  - intros b Hb. apply String.eqb_eq. rewrite token_zero. now apply Z.eqb_eq.
  - intros b Hb. split.
    + rewrite token_prefix. apply negb_true_iff. now apply Z.eqb_neq.
    + intros H. apply String.eqb_eq in H. rewrite token_zero in H.
      now apply Z.eqb_eq in H.
  - reflexivity.
  - intros a m.
    destruct (x86_64_second_line_has_bare_zero a m) as (l1 & l2 & rest & H & Ht).
    exists l1, l2. split; [exact H |]. rewrite Ht. now left.
Qed.

End PrintLongDoubleFacts.


(** ** Properties of multi_threaded2 *)

Module MultiThreaded2Facts.

Import Text TextFacts MultiThreaded2.

Local Open Scope nat_scope.

(** *** Schedules *)

Lemma run_app tids (l1 l2 : list actor) : forall s,
  run tids (l1 ++ l2) s = run tids l2 (run tids l1 s).
Proof. induction l1 as [|a l1 IH]; intros s; simpl; [reflexivity | apply IH]. Qed.

Lemma main_moves_app (l1 l2 : list actor) :
  main_moves (l1 ++ l2) = main_moves l1 + main_moves l2.
Proof. unfold main_moves. now rewrite List.filter_app, List.length_app. Qed.

Lemma upto_S f n : upto f (S n) = upto f n ++ [f n].
Proof. unfold upto. now rewrite seq_S, List.map_app. Qed.

(** *** What one move does *)

Lemma handles_length c s : main_ok c s -> List.length (handles s) = 10.
Proof.
  intros (_ & H & _). rewrite H.
  rewrite List.length_app, List.length_map, List.length_seq, length_replicate.
  lia.
Qed.

Lemma main_at_create c : c <= 10 -> main_at c = M_create c.
Proof. intros H. unfold main_at. now destruct (Nat.leb_spec c 10); [| lia]. Qed.

Lemma main_at_blocked c : 12 <= c -> main_at c = M_in_join 0.
Proof.
  intros H. unfold main_at.
  destruct (Nat.leb_spec c 10); [lia |].
  destruct (Nat.eqb_spec c 11); [lia | reflexivity].
Qed.

(** In the first loop main spawns the next thread. *)
Lemma main_creates tids c s :
  main_ok c s -> c < 10 ->
  step_or_stay tids Main s
  = State (M_create (S c)) (<[c := Some c]> (handles s))
      (pool s ++ [Thread (tids c) say_hi L_while]) (out s)
      (calls s ++ [Pthread_create c say_hi]) (joined s).
Proof.
  intros Hok Hc. pose proof (handles_length _ _ Hok) as Hlen.
  destruct Hok as (Hat & _ & Hpool & _).
  rewrite Nat.min_r in Hpool by lia.
  unfold step_or_stay, step, main_step.
  rewrite Hat, main_at_create by lia.
  destruct (Nat.ltb_spec c (List.length (handles s))); [| lia].
  unfold goto, pthread_create, log_call. cbn. now rewrite Hpool.
Qed.

Lemma frags_same j s s' : out s' = out s -> frags j s' = frags j s.
Proof. unfold frags. now intros ->. Qed.

Lemma frags_snoc j i x s s' :
  out s' = out s ++ [(i, x)] ->
  frags j s' = frags j s ++ (if Nat.eqb i j then [x] else []).
Proof.
  unfold frags. intros ->.
  rewrite List.filter_app, List.map_app. cbn.
  now destruct (Nat.eqb i j).
Qed.

(** A spawned thread that exists takes one step of [say_hi]. *)
Lemma thread_moves tids c s i th :
  ok tids c s -> pool s !! i = Some th ->
  step_or_stay tids (Spawned i) s
  = State (at_main s) (handles s)
      (<[i := Thread (tid th) say_hi (fst (say_hi (tid th) (at_label th)))]>
         (pool s))
      (out s ++ match snd (say_hi (tid th) (at_label th)) with
                | Some x => [(i, x)]
                | None => []
                end)
      (calls s) (joined s).
Proof.
  intros [Hm Ht] Hi. specialize (Ht i). unfold thread_ok in Ht.
  rewrite Hi in Ht. destruct Ht as (_ & Hr & Hl & _).
  destruct Hm as (Hat & _).
  unfold step_or_stay, step, thread_step. rewrite Hi, Hat, Hr.
  assert (is_returned (at_label th) = false) as ->
    by (destruct (at_label th) eqn:E; cbn; congruence).
  destruct (say_hi (tid th) (at_label th)) as [l o]. cbn [fst snd].
  unfold main_at.
  destruct (c <=? 10); [reflexivity |]. now destruct (c =? 11).
Qed.

Lemma thread_absent tids s i :
  pool s !! i = None -> step_or_stay tids (Spawned i) s = s.
Proof.
  intros Hi. unfold step_or_stay, step, thread_step. rewrite Hi.
  now destruct (at_main s).
Qed.

Lemma frags_emit j i o s s' :
  out s' = out s ++ match o with Some x => [(i, x)] | None => [] end ->
  frags j s'
  = frags j s ++ (if Nat.eqb i j
                  then match o with Some x => [x] | None => [] end
                  else []).
Proof.
  destruct o as [x|]; intros H.
  - rewrite (frags_snoc j i x s s' H). now destruct (Nat.eqb i j).
  - rewrite app_nil_r in H. rewrite (frags_same j s s' H).
    destruct (Nat.eqb i j); now rewrite app_nil_r.
Qed.

Lemma rounds_snoc t n : rounds t (S n) = rounds t n ++ round t.
Proof.
  induction n as [|n IH]; [reflexivity |].
  change (rounds t (S (S n))) with (round t ++ rounds t (S n)).
  rewrite IH at 1. now rewrite app_assoc.
Qed.

(** *** The invariant *)

Lemma ok_init tids : ok tids 0 init.
Proof.
  split.
  - repeat split.
  - intros j. unfold thread_ok. reflexivity.
Qed.

Lemma handles_next c :
  c < 10 ->
  <[c := Some c]> (List.map Some (seq 0 c) ++ replicate (10 - c) None)
  = List.map Some (seq 0 (S c)) ++ replicate (10 - S c) (@None nat).
Proof.
  intros Hc.
  rewrite insert_app_r_alt by (rewrite List.length_map, List.length_seq; lia).
  rewrite List.length_map, List.length_seq, Nat.sub_diag.
  replace (10 - c) with (S (10 - S c)) by lia. cbn [replicate].
  rewrite seq_S, List.map_app, <- app_assoc. reflexivity.
Qed.

(** Past the first loop main calls pthread_join on the first handle and
    then waits there. *)
Lemma main_waits tids c s :
  ok tids c s -> 10 <= c ->
  step_or_stay tids Main s
  = if c =? 10 then goto (M_join 0) s
    else if c =? 11 then goto (M_in_join 0) (log_call (Pthread_join 0) s)
    else s.
Proof.
  intros [Hm Ht] Hc. destruct Hm as (Hat & Hh & _).
  rewrite Nat.min_l in Hh by lia.
  unfold step_or_stay, step, main_step. rewrite Hat.
  destruct (Nat.eqb_spec c 10) as [-> | H10].
  - cbn. now rewrite Hh.
  - destruct (Nat.eqb_spec c 11) as [-> | H11].
    + cbn. now rewrite Hh.
    + rewrite main_at_blocked by lia.
      specialize (Ht 0). unfold thread_ok in Ht.
      unfold terminated. rewrite Hh. cbn.
      destruct (pool s !! 0) as [th|] eqn:E; [| reflexivity].
      destruct Ht as (_ & _ & Hl & _).
      now destruct (at_label th).
Qed.

Lemma ok_main tids c s :
  ok tids c s -> ok tids (S c) (step_or_stay tids Main s).
Proof.
  intros Hok. pose proof Hok as [Hm Ht].
  destruct (Nat.lt_ge_cases c 10) as [Hc | Hc].
  - (* the first loop *)
    rewrite (main_creates tids c s Hm Hc).
    destruct Hm as (Hat & Hh & Hp & Hcalls & Hj).
    rewrite Nat.min_r in Hh, Hp, Hcalls by lia.
    destruct (Nat.leb_spec 12 c); [lia |].
    split.
    + unfold main_ok. cbn [at_main handles pool calls joined].
      rewrite Nat.min_r by lia.
      destruct (Nat.leb_spec 12 (S c)); [lia |].
      rewrite main_at_create by lia.
      rewrite Hh, handles_next by lia.
      rewrite List.length_app, Hp, Hcalls, !app_nil_r.
      rewrite (seq_S c), !List.map_app. cbn.
      repeat split; try lia. exact Hj.
    + intros j. specialize (Ht j). unfold thread_ok in *.
      cbn [pool]. rewrite (frags_same j s) by reflexivity.
      destruct (Nat.lt_trichotomy j c) as [Hlt | [-> | Hgt]].
      * rewrite lookup_app_l by lia. exact Ht.
      * rewrite lookup_ge_None_2 in Ht by lia.
        rewrite lookup_app_r by lia. rewrite Hp, Nat.sub_diag. cbn.
        repeat split; try discriminate.
        exists 0. split; [now rewrite Ht | discriminate].
      * rewrite lookup_ge_None_2 in Ht by lia.
        rewrite lookup_ge_None_2 by (rewrite List.length_app; cbn; lia).
        exact Ht.
  - (* past the first loop *)
    rewrite (main_waits tids c s Hok Hc).
    destruct Hm as (Hat & Hh & Hp & Hcalls & Hj).
    rewrite Nat.min_l in Hh, Hp, Hcalls by lia.
    split.
    + unfold main_ok. rewrite Nat.min_l by lia.
      destruct (Nat.eqb_spec c 10) as [-> | H10]; [repeat split; cbn; auto |].
      destruct (Nat.eqb_spec c 11) as [-> | H11].
      * repeat split; cbn; auto. now rewrite Hcalls.
      * rewrite main_at_blocked by lia.
        rewrite main_at_blocked in Hat by lia.
        destruct (Nat.leb_spec 12 c); [| lia].
        destruct (Nat.leb_spec 12 (S c)); [| lia].
        repeat split; auto.
    + intros j. specialize (Ht j). unfold thread_ok in *.
      destruct (c =? 10); [exact Ht |]. destruct (c =? 11); exact Ht.
Qed.

Lemma ok_thread tids c s i :
  ok tids c s -> ok tids c (step_or_stay tids (Spawned i) s).
Proof.
  intros Hok. destruct (pool s !! i) as [th|] eqn:Hi.
  2: { now rewrite thread_absent. }
  rewrite (thread_moves tids c s i th Hok Hi).
  destruct Hok as [Hm Ht]. split.
  - destruct Hm as (Hat & Hh & Hp & Hcalls & Hj).
    unfold main_ok. cbn [at_main handles pool calls joined].
    now rewrite length_insert.
  - intros j. pose proof (Ht j) as Hj. unfold thread_ok in *.
    cbn [pool]. rewrite (frags_emit j i _ s) by reflexivity.
    destruct (Nat.eqb_spec i j) as [<- | Hne].
    + rewrite Hi in Hj. destruct Hj as (Htid & Hr & Hl & n & Hf & Hs).
      rewrite list_lookup_insert_eq by (now apply lookup_lt_Some in Hi).
      cbn [tid start_routine at_label]. rewrite Hf, Htid.
      destruct (at_label th) eqn:E; cbn; try congruence;
        (split; [reflexivity |]); (split; [reflexivity |]);
        (split; [discriminate |]).
      * exists n. now rewrite !app_nil_r.
      * exists n. now rewrite !app_nil_r.
      * exists n. rewrite <- app_assoc. split; [reflexivity | discriminate].
      * exists (S n). rewrite rounds_snoc, <- !app_assoc.
        split; [reflexivity | lia].
      * exists n. rewrite !app_nil_r. split; [reflexivity | discriminate].
    + rewrite list_lookup_insert_ne by exact Hne.
      now rewrite app_nil_r.
Qed.

Lemma ok_step tids c s a :
  ok tids c s ->
  ok tids (c + main_moves [a]) (step_or_stay tids a s).
Proof.
  intros Hok. destruct a as [|i]; cbn.
  - rewrite Nat.add_1_r. now apply ok_main.
  - rewrite Nat.add_0_r. now apply ok_thread.
Qed.

Lemma ok_run tids (sched : list actor) : forall c s,
  ok tids c s -> ok tids (c + main_moves sched) (run tids sched s).
Proof.
  induction sched as [|a sched IH]; intros c s Hok.
  - cbn. now rewrite Nat.add_0_r.
  - change (a :: sched) with ([a] ++ sched).
    rewrite main_moves_app, Nat.add_assoc. cbn [run app].
    apply IH. now apply ok_step.
Qed.

(** Every state a schedule reaches satisfies the invariant. *)
Lemma reachable_ok tids sched :
  ok tids (main_moves sched) (run tids sched init).
Proof. apply (ok_run tids sched 0 init (ok_init tids)). Qed.

(** *** Consequences *)

Lemma filter_create_creates (ks : list nat) (r : routine) :
  List.filter is_create (List.map (fun k => Pthread_create k r) ks)
  = List.map (fun k => Pthread_create k r) ks.
Proof. induction ks as [|k ks IH]; cbn; [reflexivity | now rewrite IH]. Qed.

Lemma filter_join_creates (ks : list nat) (r : routine) :
  List.filter is_join (List.map (fun k => Pthread_create k r) ks) = [].
Proof. induction ks as [|k ks IH]; cbn; [reflexivity | exact IH]. Qed.

Lemma lookup_filled (n : nat) : forall a k (rest : list (option nat)),
  k < n -> (List.map Some (seq a n) ++ rest) !! k = Some (Some (a + k)).
Proof.
  induction n as [|n IH]; intros a k rest Hk; [lia |].
  destruct k as [|k]; cbn.
  - now rewrite Nat.add_0_r.
  - rewrite IH by lia. do 2 f_equal. lia.
Qed.

Lemma never_joined tids sched : joined (run tids sched init) = [].
Proof. now destruct (reachable_ok tids sched) as [(_ & _ & _ & _ & H) _]. Qed.

Lemma never_exits tids sched : at_main (run tids sched init) <> M_exit.
Proof.
  destruct (reachable_ok tids sched) as [(H & _) _]. rewrite H.
  unfold main_at. destruct (_ <=? 10); [discriminate |].
  destruct (_ =? 11); discriminate.
Qed.

Lemma spawned_thread tids sched j th :
  pool (run tids sched init) !! j = Some th ->
  tid th = tids j /\ start_routine th = say_hi /\ at_label th <> L_return.
Proof.
  intros H. destruct (reachable_ok tids sched) as [_ Ht].
  specialize (Ht j). unfold thread_ok in Ht. rewrite H in Ht. tauto.
Qed.

Lemma alone_stays_inside t (n : nat) : forall l,
  l <> L_return -> fst (alone say_hi t n l) <> L_return.
Proof.
  induction n as [|n IH]; intros l Hl; [exact Hl |].
  cbn [alone].
  destruct (say_hi t l) as [l' o] eqn:E.
  assert (Hl' : l' <> L_return)
    by (destruct l; cbn in E; inversion E; congruence).
  specialize (IH l' Hl'). destruct (alone say_hi t n l') as [l'' os].
  exact IH.
Qed.

Lemma alone_rounds t (n : nat) :
  alone say_hi t (5 * n) L_while = (L_while, rounds t n).
Proof.
  induction n as [|n IH]; [reflexivity |].
  replace (5 * S n) with (S (S (S (S (S (5 * n)))))) by lia.
  cbn [alone say_hi]. now rewrite IH.
Qed.

(** *** The text of a report *)

Lemma digit_char_plain (d : Z) (c : ascii) :
  (0 <= d < 10)%Z -> (c = space \/ c = newline) ->
  Ascii.eqb (digit_char d) c = false.
Proof.
  intros Hd Hc.
  assert (d = 0 \/ d = 1 \/ d = 2 \/ d = 3 \/ d = 4 \/ d = 5 \/ d = 6
          \/ d = 7 \/ d = 8 \/ d = 9)%Z as Hcases by lia.
  destruct Hc as [-> | ->];
    repeat (destruct Hcases as [-> | Hcases]; [reflexivity |]);
    subst d; reflexivity.
Qed.

Lemma digits_plain (c : ascii) (fuel : nat) : forall v acc,
  (c = space \/ c = newline) ->
  occurs c acc = false -> occurs c (digits 10 fuel v acc) = false.
Proof.
  induction fuel as [|fuel IH]; intros v acc Hc Hacc; [exact Hacc |].
  cbn [digits].
  assert (occurs c (String (digit_char (v mod 10)) acc) = false) as H.
  { cbn [occurs]. rewrite Hacc, digit_char_plain; [reflexivity | | exact Hc].
    apply Z.mod_pos_bound. lia. }
  destruct (v / 10 =? 0)%Z; [exact H | now apply IH].
Qed.

Lemma digits_nonempty (fuel : nat) : forall v acc,
  nonempty acc = true -> nonempty (digits 10 fuel v acc) = true.
Proof.
  induction fuel as [|fuel IH]; intros v acc Hacc; [exact Hacc |].
  cbn [digits]. destruct (v / 10 =? 0)%Z; [reflexivity | now apply IH].
Qed.

Lemma digits_some (fuel : nat) v :
  nonempty (digits 10 (S fuel) v EmptyString) = true.
Proof.
  cbn [digits]. destruct (v / 10 =? 0)%Z; [reflexivity |].
  now apply digits_nonempty.
Qed.

Lemma fmt_d_clean (t : Z) : clean (fmt_d t) = true.
Proof.
  unfold clean, fmt_d. destruct (t <? 0)%Z.
  - cbn [nonempty occurs].
    rewrite !digits_plain by (auto; reflexivity). reflexivity.
  - rewrite digits_some.
    rewrite !digits_plain by (auto; reflexivity). reflexivity.
Qed.

(** A report has four tokens and no newline. *)
Lemma tokens_report (t : Z) :
  tokens (report t)
  = ["Thread"; fmt_d t; "reporting"; "in"]%string.
Proof.
  unfold report.
  change ("Thread " ++ fmt_d t ++ " reporting in")%string
    with ("Thread" ++ String space (fmt_d t ++ String space "reporting in"))%string.
  rewrite tokens_cons by reflexivity.
  rewrite tokens_cons by apply fmt_d_clean.
  reflexivity.
Qed.

Lemma report_one_line (t : Z) : occurs newline (report t) = false.
Proof.
  unfold report. rewrite !occurs_app.
  pose proof (fmt_d_clean t) as H. unfold clean in H.
  apply andb_true_iff in H as [_ H]. apply negb_true_iff in H.
  now rewrite H.
Qed.

Lemma concat_app (l1 l2 : list string) :
  concat (l1 ++ l2) = (concat l1 ++ concat l2)%string.
Proof.
  induction l1 as [|x l1 IH]; cbn; [reflexivity |].
  now rewrite IH, append_assoc.
Qed.

Lemma concat_rounds (t : Z) (n : nat) :
  concat (rounds t n) = copies n (report t ++ nl).
Proof.
  induction n as [|n IH]; [reflexivity |].
  cbn [rounds copies]. rewrite concat_app, IH. f_equal.
  unfold round, report. cbn [concat].
  now rewrite append_empty_r, !append_assoc.
Qed.

Lemma split_copies (r : string) (n : nat) :
  occurs newline r = false ->
  split_on newline (copies n (r ++ nl)) = repeat r n ++ [EmptyString].
Proof.
  intros Hr. induction n as [|n IH]; [reflexivity |].
  cbn [copies repeat]. rewrite append_assoc. unfold nl at 1. cbn [append].
  rewrite split_on_sep by exact Hr. now rewrite IH.
Qed.

(** [n] reports, each with its newline, are [n] lines of four tokens. *)
Lemma shape_reports (t : Z) (n : nat) :
  shape (copies n (report t ++ nl)) = repeat 4 n.
Proof.
  unfold shape, lines. rewrite split_copies by apply report_one_line.
  rewrite List.last_last, List.removelast_last.
  induction n as [|n IH]; [reflexivity |].
  cbn [repeat List.map]. rewrite IH, tokens_report. reflexivity.
Qed.

(** What a thread has written: whole reports, then the start of one. *)
Lemma written_rounds tids sched j :
  exists n p,
    written_by j (run tids sched init)
    = (copies n (report (tids j) ++ nl) ++ p)%string /\
    In p [EmptyString; "Thread "%string; ("Thread " ++ fmt_d (tids j))%string].
Proof.
  destruct (reachable_ok tids sched) as [_ Ht]. specialize (Ht j).
  unfold thread_ok in Ht. unfold written_by.
  destruct (pool _ !! j) as [th|].
  - destruct Ht as (_ & _ & _ & n & Hf & _). rewrite Hf.
    exists n, (concat (partial (tids j) (at_label th))).
    rewrite concat_app, concat_rounds. split; [reflexivity |].
    destruct (at_label th); cbn; rewrite ?append_empty_r; auto.
  - rewrite Ht. exists 0, EmptyString. split; [reflexivity | now left].
Qed.

(** *** Progress under a fair schedule *)

Lemma climbs (r : nat -> nat) (hit : nat -> Prop) (n0 B : nat) :
  (forall n, n0 <= n -> r n <= r (S n)) ->
  (forall n, n0 <= n -> hit n -> r n < B -> r n < r (S n)) ->
  (forall n, exists m, n <= m /\ hit m) ->
  exists n, n0 <= n /\ B <= r n.
Proof.
  intros Hmono Hstrict Hfair.
  assert (Hle : forall n m, n0 <= n -> n <= m -> r n <= r m).
  { intros n m Hn Hnm. induction Hnm as [|m Hnm IH]; [lia |].
    specialize (Hmono m). lia. }
  induction B as [|B IH].
  - exists n0. lia.
  - destruct IH as (n & Hn & HB).
    { intros k Hk Hhit Hlt. apply Hstrict; [exact Hk | exact Hhit | lia]. }
    destruct (Hfair n) as (m & Hnm & Hhit).
    specialize (Hle n m Hn Hnm).
    destruct (Nat.lt_ge_cases (r m) (S B)) as [Hlt | Hge].
    + exists (S m). split; [lia |].
      specialize (Hstrict m ltac:(lia) Hhit Hlt). lia.
    + exists m. split; [lia | exact Hge].
Qed.

Lemma length_rounds t n : List.length (rounds t n) = 3 * n.
Proof. induction n as [|n IH]; cbn [rounds]; [reflexivity |]. cbn. lia. Qed.

Lemma rank_same j s s' :
  pool s' = pool s -> out s' = out s -> rank j s' = rank j s.
Proof. unfold rank, frags. now intros -> ->. Qed.

(** No move sets a thread back, and its own move takes a thread that
    exists and has not finished its first line further. *)
Lemma rank_step tids c s a j :
  ok tids c s ->
  rank j s <= rank j (step_or_stay tids a s) /\
  (a = Spawned j -> 1 <= rank j s < 7 ->
   rank j s < rank j (step_or_stay tids a s)).
Proof.
  intros Hok. destruct a as [|i].
  - split; [| discriminate].
    destruct (Nat.lt_ge_cases c 10) as [Hc | Hc].
    + destruct Hok as [Hm _]. rewrite (main_creates tids c s Hm Hc).
      unfold rank. cbn [pool]. rewrite (frags_same j s (State _ _ _ _ _ _)) by reflexivity.
      destruct (pool s !! j) as [th|] eqn:E; [| lia].
      rewrite lookup_app_l by (now apply lookup_lt_Some in E).
      now rewrite E.
    + rewrite (main_waits tids c s Hok Hc).
      destruct (c =? 10);
        [rewrite (rank_same j s (goto _ _)) by reflexivity; lia |].
      destruct (c =? 11);
        [rewrite (rank_same j s (goto _ _)) by reflexivity; lia | lia].
  - destruct (pool s !! i) as [th|] eqn:Hi.
    2: { rewrite thread_absent by exact Hi. split; [lia |].
         intros [= ->] H. unfold rank in H. rewrite Hi in H. lia. }
    rewrite (thread_moves tids c s i th Hok Hi).
    set (s' := State _ _ _ _ _ _).
    assert (Hrank : rank j s'
      = match <[i := Thread (tid th) say_hi
                        (fst (say_hi (tid th) (at_label th)))]> (pool s) !! j
        with
        | None => 0
        | Some th' =>
            1 + 2 * List.length
                      (frags j s ++
                       (if Nat.eqb i j
                        then match snd (say_hi (tid th) (at_label th)) with
                             | Some x => [x]
                             | None => []
                             end
                        else []))
            + match at_label th' with L_while | L_sleep => 0 | _ => 1 end
        end).
    { unfold rank, s'. cbn [pool].
      now rewrite (frags_emit j i _ s (State _ _ _ _ _ _)) by reflexivity. }
    rewrite Hrank. clear Hrank. clearbody s'.
    destruct (Nat.eqb_spec i j) as [<- | Hne].
    + destruct Hok as [_ Ht]. specialize (Ht i). unfold thread_ok in Ht.
      rewrite Hi in Ht. destruct Ht as (_ & _ & Hl & n & Hf & Hs).
      rewrite list_lookup_insert_eq by (now apply lookup_lt_Some in Hi).
      unfold rank. rewrite Hi, Hf. cbn [at_label].
      rewrite !List.length_app, length_rounds.
      destruct (at_label th) eqn:E; cbn; try congruence;
        try specialize (Hs eq_refl);
        (split; [lia | intros _ Hr; lia]).
    + rewrite list_lookup_insert_ne by exact Hne.
      rewrite app_nil_r. fold (rank j s). split; [lia |].
      intros [= ->]. congruence.
Qed.

(** A thread that is far enough has written a whole line. *)
Lemma rank_reported tids c s j :
  ok tids c s -> 7 <= rank j s -> reported tids j s.
Proof.
  intros [_ Ht] Hr. specialize (Ht j). unfold thread_ok in Ht.
  unfold rank in Hr. destruct (pool s !! j) as [th|]; [| lia].
  destruct Ht as (_ & _ & _ & n & Hf & _).
  rewrite Hf, List.length_app, length_rounds in Hr.
  destruct n as [|n].
  { destruct (at_label th); cbn in Hr; lia. }
  unfold reported, written_by. rewrite Hf, concat_app, concat_rounds.
  cbn [copies]. rewrite !append_assoc. eexists. reflexivity.
Qed.

Lemma run_upto_S tids f n :
  run tids (upto f (S n)) init
  = step_or_stay tids (f n) (run tids (upto f n) init).
Proof. now rewrite upto_S, run_app. Qed.

Lemma main_moves_upto_S f n :
  main_moves (upto f (S n)) = main_moves (upto f n) + main_moves [f n].
Proof. now rewrite upto_S, main_moves_app. Qed.

(** Under a schedule that keeps choosing main, all ten threads come to
    exist. *)
Lemma eventually_all_spawned tids f :
  recurs f Main ->
  exists n, List.length (pool (run tids (upto f n) init)) = 10.
Proof.
  intros Hfair.
  destruct (climbs (fun n => main_moves (upto f n)) (fun n => f n = Main) 0 10)
    as (n & _ & Hn).
  - intros n _. rewrite main_moves_upto_S. lia.
  - intros n _ Hhit _. rewrite main_moves_upto_S, Hhit. cbn. lia.
  - exact Hfair.
  - exists n. destruct (reachable_ok tids (upto f n)) as [(_ & _ & Hp & _) _].
    rewrite Hp. lia.
Qed.

Lemma eventually_reported tids f j :
  recurs f Main -> recurs f (Spawned j) -> j < 10 ->
  exists n, forall n', n <= n' -> reported tids j (run tids (upto f n') init).
Proof.
  intros Hmain Hj Hlt.
  destruct (eventually_all_spawned tids f Hmain) as (n1 & Hn1).
  pose (r := fun n => rank j (run tids (upto f n) init)).
  assert (Hmono : forall n, r n <= r (S n)).
  { intros n. unfold r. rewrite run_upto_S.
    apply (rank_step tids _ _ _ j (reachable_ok tids (upto f n))). }
  assert (Hle : forall n m, n <= m -> r n <= r m).
  { intros n m Hnm. induction Hnm as [|m Hnm IH]; [lia |].
    specialize (Hmono m). lia. }
  assert (H1 : 1 <= r n1).
  { unfold r, rank.
    destruct (pool _ !! j) as [th|] eqn:E; [lia |].
    apply lookup_ge_None_1 in E. lia. }
  destruct (climbs r (fun n => f n = Spawned j) n1 7) as (n2 & Hn2 & H7).
  - intros n _. apply Hmono.
  - intros n Hn Hhit Hr. unfold r. rewrite run_upto_S.
    apply (rank_step tids _ _ _ j (reachable_ok tids (upto f n)));
      [exact Hhit |].
    specialize (Hle n1 n Hn). fold (r n). lia.
  - exact Hj.
  - exists n2. intros n' Hn'.
    apply (rank_reported tids _ _ j (reachable_ok tids (upto f n'))).
    specialize (Hle n2 n' Hn'). unfold r in Hle, H7. lia.
Qed.

Lemma round_robin_main : recurs round_robin Main.
Proof.
  intros n. exists (n * 11). split; [lia |].
  unfold round_robin. now rewrite Nat.Div0.mod_mul.
Qed.

Lemma round_robin_spawned j : j < 10 -> recurs round_robin (Spawned j).
Proof.
  intros Hj n. exists (S j + n * 11). split; [lia |].
  unfold round_robin. rewrite Nat.Div0.mod_add.
  now rewrite Nat.mod_small by lia.
Qed.

(** *** Sample runs *)

Example in_turn_output :
  stdout (run tids0 in_turn init)
  = ("Thread 1000 reporting in" ++ nl ++ "Thread 1001 reporting in" ++ nl)%string.
Proof. vm_compute. reflexivity. Qed.

Example garbled_output :
  stdout (run tids0 garbled init)
  = ("Thread Thread 1000 reporting in" ++ nl ++ "1001 reporting in" ++ nl)%string.
Proof. vm_compute. reflexivity. Qed.

Example cut_short_output :
  stdout (run tids0 cut_short init)
  = ("Thread 1000 reporting in" ++ nl ++ "Thread 1000 reporting in" ++ nl)%string
  /\ List.length (pool (run tids0 cut_short init)) = 10
  /\ at_main (run tids0 cut_short init) = M_in_join 0.
Proof. vm_compute. repeat split. Qed.

(** *** The claims *)

(** C2: main calls pthread_create once for each element of the vector of
    ten handles, in order and with [say_hi] as start routine, one call per
    move until all ten are made, and never again; the process has as many
    spawned threads as calls were made, ten at most, element k of the
    vector refers to the k-th of them, and each runs [say_hi] under the
    thread id it was given. *)
Theorem main_creates_one_thread_per_handle tids sched :
  let s := run tids sched init in
  let n := Nat.min 10 (main_moves sched) in
  List.length (handles s) = 10 /\
  List.filter is_create (calls s)
  = List.map (fun k => Pthread_create k say_hi) (seq 0 n) /\
  List.length (pool s) = n /\
  (forall k, k < n -> handles s !! k = Some (Some k)) /\
  (forall j th, pool s !! j = Some th ->
     start_routine th = say_hi /\ tid th = tids j).
Proof.
  intros s n. pose proof (reachable_ok tids sched) as Hok. fold s in Hok.
  pose proof Hok as [Hm _]. pose proof (handles_length _ _ Hm) as Hlen.
  destruct Hm as (_ & Hh & Hp & Hcalls & _). fold n in Hh, Hp, Hcalls.
  split; [exact Hlen |]. split.
  { rewrite Hcalls, List.filter_app, filter_create_creates.
    destruct (12 <=? _); cbn; now rewrite app_nil_r. }
  split; [exact Hp |]. split.
  - intros k Hk. rewrite Hh. now apply lookup_filled.
  - intros j th H. apply spawned_thread in H. tauto.
Qed.

(** C3: [say_hi] never returns.  Run on its own from its entry it is
    never past its closing brace, after every five steps it is back at
    the head of the loop with one more round written, and one step later
    it is in the loop body again; and in the process, under every
    schedule, no spawned thread has returned. *)
Theorem say_hi_never_returns :
  (forall t n, fst (alone say_hi t n L_while) <> L_return) /\
  (forall t n, alone say_hi t (5 * n) L_while = (L_while, rounds t n)) /\
  (forall t, say_hi t L_while = (L_put_thread, None)) /\
  (forall tids sched th,
     In th (pool (run tids sched init)) ->
     start_routine th = say_hi /\ at_label th <> L_return).
Proof.
  split; [| split; [| split]].
  - intros t n. now apply alone_stays_inside.
  - apply alone_rounds.
  - reflexivity.
  - intros tids sched th H.
    apply list_elem_of_In, list_elem_of_lookup in H as [j Hj].
    apply spawned_thread in Hj. tauto.
Qed.

(** C4, as stated, fails: not even under some schedule is each of the ten
    handles joined. *)
Lemma not_every_handle_is_joined :
  ~ (forall k, k < 10 ->
       exists sched, In k (joined (run tids0 sched init))).
Proof.
  intros H. destruct (H 0) as [sched Hin]; [lia |].
  now rewrite never_joined in Hin.
Qed.

(** C4, amended: no pthread_join ever returns.  Main calls pthread_join
    only on the first handle, once its first loop is over, and stays
    inside that call: the thread behind the handle never terminates, so
    no handle is ever joined and main never leaves. *)
Theorem no_join_ever_returns tids sched :
  let s := run tids sched init in
  joined s = [] /\
  at_main s <> M_exit /\
  List.filter is_join (calls s)
  = (if 12 <=? main_moves sched then [Pthread_join 0] else []) /\
  (forall k, terminated k s = false) /\
  (12 <= main_moves sched -> at_main s = M_in_join 0).
Proof.
  intros s. pose proof (reachable_ok tids sched) as [Hm Ht]. fold s in Hm, Ht.
  split; [apply never_joined |]. split; [apply never_exits |].
  destruct Hm as (Hat & _ & _ & Hcalls & _).
  split; [| split].
  - rewrite Hcalls, List.filter_app, filter_join_creates.
    now destruct (12 <=? _).
  - intros k. unfold terminated.
    destruct (handles s !! k) as [[j|]|]; try reflexivity.
    destruct (pool s !! j) as [th|] eqn:E; [| reflexivity].
    specialize (Ht j). unfold thread_ok in Ht. rewrite E in Ht.
    destruct Ht as (_ & _ & Hl & _). now destruct (at_label th).
  - intros H. rewrite Hat. now apply main_at_blocked.
Qed.

(** C5, as stated, fails: two threads that take turns inside a round
    produce a line that is no report of any thread id. *)
Lemma interleaved_writes_garble_a_line :
  exists line,
    In line (lines (stdout (run tids0 garbled init))) /\
    forall t, line <> report t.
Proof.
  exists "Thread Thread 1000 reporting in"%string. split.
  - vm_compute. now left.
  - intros t H.
    apply (f_equal (fun x => List.length (tokens x))) in H.
    rewrite tokens_report in H. cbn [List.length] in H.
    vm_compute in H. discriminate.
Qed.

(** C5, amended: what each thread writes, taken by itself, is a sequence
    of lines of the form Thread <id> reporting in, with the id of that
    very thread, followed at most by the beginning of the next such line.
    (The lines of standard output are those texts merged piece by piece as
    the threads are scheduled.) *)
Theorem each_thread_writes_report_lines tids sched j :
  let s := run tids sched init in
  (exists n p,
     written_by j s = (copies n (report (tids j) ++ nl) ++ p)%string /\
     In p [EmptyString; "Thread "%string;
           ("Thread " ++ fmt_d (tids j))%string]) /\
  (forall th, pool s !! j = Some th ->
     tid th = tids j /\ start_routine th = say_hi).
Proof.
  intros s. split; [apply written_rounds |].
  intros th H. apply spawned_thread in H. tauto.
Qed.

(** C7, as stated, fails: two runs of the first program that print the
    same number of lines differ in the number of tokens per line. *)
Lemma interleaving_changes_the_shape :
  List.length (shape (stdout (run tids0 in_turn init)))
  = List.length (shape (stdout (run tids0 garbled init))) /\
  shape (stdout (run tids0 in_turn init))
  <> shape (stdout (run tids0 garbled init)).
Proof. vm_compute. split; [reflexivity | discriminate]. Qed.

(** C7, amended: all runs of the second program print output of one
    shape, two lines of 16 tokens.  In the first program what each thread
    writes by itself has a fixed shape, four tokens on every line it
    completes; the shape of the merged output depends on how the writes
    of the threads are interleaved. *)
Theorem output_shape_across_runs :
  (forall encode a m encode' a' m',
     shape (PrintLongDouble.stdout
              (PrintLongDouble.exec (PrintLongDouble.main encode a)
                 (PrintLongDouble.start m)))
     = shape (PrintLongDouble.stdout
                (PrintLongDouble.exec (PrintLongDouble.main encode' a')
                   (PrintLongDouble.start m')))) /\
  (forall encode a m,
     shape (PrintLongDouble.stdout
              (PrintLongDouble.exec (PrintLongDouble.main encode a)
                 (PrintLongDouble.start m)))
     = [16; 16]) /\
  (forall tids sched j,
     exists n p,
       written_by j (run tids sched init)
       = (copies n (report (tids j) ++ nl) ++ p)%string /\
       shape (copies n (report (tids j) ++ nl)) = repeat 4 n /\
       In p [EmptyString; "Thread "%string;
             ("Thread " ++ fmt_d (tids j))%string]).
Proof.
  split; [| split].
  - intros. now rewrite !PrintLongDoubleFacts.main_shape.
  - apply PrintLongDoubleFacts.main_shape.
  - intros tids sched j.
    destruct (written_rounds tids sched j) as (n & p & Hw & Hp).
    exists n, p. split; [exact Hw |]. split; [apply shape_reports | exact Hp].
Qed.

(** C8, as stated, fails: a run can be ended after the first thread has
    reported twice and before the last thread has written anything. *)
Lemma a_run_cut_short_misses_a_report :
  ~ reported tids0 9 (run tids0 cut_short init).
Proof. intros [rest H]. vm_compute in H. discriminate. Qed.

(** C8, amended: under a schedule that chooses main and each of the ten
    threads again and again, there is a point from which on every one of
    the ten threads has written at least one whole reporting in line;
    a run that is ended earlier, or a schedule that starves a thread,
    need not show a line of every thread. *)
Theorem every_thread_reports_under_a_fair_schedule tids f :
  recurs f Main ->
  (forall j, j < 10 -> recurs f (Spawned j)) ->
  exists n, forall n' j,
    n <= n' -> j < 10 -> reported tids j (run tids (upto f n') init).
Proof.
  intros Hmain Hthreads.
  assert (H : forall k, k <= 10 ->
            exists n, forall n' j,
              n <= n' -> j < k ->
              reported tids j (run tids (upto f n') init)).
  { induction k as [|k IH]; intros Hk.
    - exists 0. intros n' j _ Hj. lia.
    - destruct IH as (na & Ha); [lia |].
      destruct (eventually_reported tids f k Hmain (Hthreads k ltac:(lia)))
        as (nb & Hb); [lia |].
      exists (Nat.max na nb). intros n' j Hn' Hj.
      destruct (Nat.eq_dec j k) as [-> | Hne].
      + apply Hb. lia.
      + apply Ha; lia. }
  apply (H 10). lia.
Qed.

(** The amended C8 at work: main and the ten threads in turn. *)
Lemma every_thread_reports_under_round_robin :
  exists n, forall n' j,
    n <= n' -> j < 10 ->
    reported tids0 j (run tids0 (upto round_robin n') init).
Proof.
  apply (every_thread_reports_under_a_fair_schedule tids0 round_robin).
  - exact round_robin_main.
  - exact round_robin_spawned.
Defined.

End MultiThreaded2Facts.


(** ** Further properties of print_longdouble *)

Module PrintLongDoubleMore.

Import Text TextFacts PrintLongDouble PrintLongDoubleFacts.

(** *** Ranges of addresses *)

Lemma span_upper (n : nat) : forall i x, In x (span i n) -> x < i + Z.of_nat n.
Proof.
  induction n as [|n IH]; intros i x; simpl; [tauto |].
  intros [<- | H]; [lia |]. apply IH in H. lia.
Qed.

Lemma skipn_span_lower (k : nat) : forall n i x,
  In x (skipn n (span i k)) -> i + Z.of_nat n <= x.
Proof.
  induction k as [|k IH]; intros n i x H.
  - destruct n; contradiction.
  - destruct n as [|n].
    + apply span_lower in H. lia.
    + cbn [span skipn] in H. apply IH in H. lia.
Qed.

Lemma object_plain (m : memory) (a : addr) :
  object a m = List.map (fun i => m (a + i)) (span 0 16).
Proof. unfold object, window. now rewrite List.map_map. Qed.

(** *** Lengths of text *)




(** *** Properties *)

(** Where the stored bytes of both constants end, the tokens of both lines
    are the same: they show what memory held before [main] ran, which no
    statement overwrites. *)
Theorem padding_tokens_show_prior_memory encode a m (n : nat) :
  List.length (encode lit_42_24) = n ->
  List.length (encode lit_64_125) = n ->
  exists l1 l2,
    lines (stdout (exec (main encode a) (start m))) = [l1; l2] /\
    skipn n (tokens l1) = List.map token_of (skipn n (object a m)) /\
    skipn n (tokens l2) = List.map token_of (skipn n (object a m)).
Proof.
  intros H1 H2.
  destruct (main_lines encode a m) as (_ & Hlines & Ht1 & Ht2).
  eexists _, _. split; [exact Hlines |].
  rewrite Ht1, Ht2, object_write_twice, object_write, object_plain.
  rewrite <- !List.skipn_map. rewrite !List.map_map.
  rewrite !List.skipn_map.
  split; apply List.map_ext_in; intros i Hi;
    apply skipn_span_lower in Hi; f_equal;
    rewrite ?(nth_overflow (encode lit_64_125)) by lia;
    rewrite ?(nth_overflow (encode lit_42_24)) by lia; reflexivity.
Qed.

Lemma padding_tokens_on_x86_64 :
  exists l1 l2,
    lines (stdout (exec (main x87_extended 0) (start zeroed))) = [l1; l2] /\
    skipn 10 (tokens l1) = List.map token_of (skipn 10 (object 0 zeroed)) /\
    skipn 10 (tokens l2) = List.map token_of (skipn 10 (object 0 zeroed)).
Proof.
  apply (padding_tokens_show_prior_memory x87_extended 0 zeroed 10);
    reflexivity.
Defined.

(** The output depends on the format of [long double] and on the 16 bytes
    the slot held before, and on nothing else: not on the address of the
    slot and not on any other memory. *)
Theorem output_depends_on_the_slot_only encode a m a' m' :
  (forall i, 0 <= i < 16 -> m (a + i) = m' (a' + i)) ->
  stdout (exec (main encode a) (start m))
  = stdout (exec (main encode a') (start m')).
Proof.
  intros H.
  destruct (main_lines encode a m) as (-> & _).
  destruct (main_lines encode a' m') as (-> & _).
  rewrite !object_write_twice, !object_write.
  assert (Hi : forall i, In i (span 0 16) -> m (a + i) = m' (a' + i)).
  { intros i Hi. apply H. pose proof (span_lower _ _ _ Hi).
    pose proof (span_upper _ _ _ Hi). lia. }
  f_equal; [| f_equal; f_equal]; f_equal;
    apply List.map_ext_in; intros i Hin; now rewrite (Hi i Hin).
Qed.

Lemma output_is_the_same_at_another_address :
  stdout (exec (main x87_extended 0) (start zeroed))
  = stdout (exec (main x87_extended 4096) (start zeroed)).
Proof.
  apply (output_depends_on_the_slot_only x87_extended 0 zeroed 4096 zeroed).
  reflexivity.
Defined.

(** On x86-64 the first ten tokens of each line are the same in every
    run, whatever the address of the slot and the memory before: the ten
    bytes of 42.24 and of 64.125 in the x87 extended format. *)
Theorem x86_64_value_tokens_are_fixed a m :
  exists l1 l2,
    lines (stdout (exec (main x87_extended a) (start m))) = [l1; l2] /\
    firstn 10 (tokens l1)
    = ["0xc3"; "0xf5"; "0x28"; "0x5c"; "0x8f";
       "0xc2"; "0xf5"; "0xa8"; "0x4"; "0x40"]%string /\
    firstn 10 (tokens l2)
    = ["0"; "0"; "0"; "0"; "0"; "0"; "0x40"; "0x80"; "0x5"; "0x40"]%string.
Proof.
  destruct (main_lines x87_extended a m) as (_ & Hlines & Ht1 & Ht2).
  eexists _, _. split; [exact Hlines |].
  rewrite Ht1, Ht2, object_write_twice, object_write.
  split; reflexivity.
Qed.


End PrintLongDoubleMore.


(** ** Further properties of multi_threaded2 *)

Module MultiThreaded2More.

Import Text TextFacts MultiThreaded2 MultiThreaded2Facts.

Local Open Scope nat_scope.

(** *** Who writes what *)

Lemma in_frags j x s : In (j, x) (out s) -> In x (frags j s).
Proof.
  intros H. unfold frags. apply List.in_map_iff. exists (j, x).
  split; [reflexivity |]. apply List.filter_In. split; [exact H |].
  cbn. apply Nat.eqb_refl.
Qed.

Lemma in_rounds t n x : In x (rounds t n) -> In x (round t).
Proof.
  induction n as [|n IH]; [contradiction |].
  cbn [rounds]. intros H. apply List.in_app_or in H as [H | H]; auto.
Qed.

Lemma in_partial t l x : In x (partial t l) -> In x (round t).
Proof. destruct l; cbn; tauto. Qed.

(** Every write to standard output is made by a spawned thread that
    exists, and is one of the three pieces of that thread's own report;
    main writes nothing. *)
Theorem only_spawned_threads_write tids sched :
  let s := run tids sched init in
  Forall (fun e => fst e < List.length (pool s) /\
                   In (snd e) (round (tids (fst e)))) (out s).
Proof.
  intros s. apply List.Forall_forall. intros [j x] He. cbn [fst snd].
  apply in_frags in He.
  destruct (reachable_ok tids sched) as [_ Ht]. fold s in Ht.
  specialize (Ht j). unfold thread_ok in Ht.
  destruct (pool s !! j) as [th|] eqn:E.
  - destruct Ht as (_ & _ & _ & n & Hf & _). rewrite Hf in He.
    split; [now apply lookup_lt_Some in E |].
    apply List.in_app_or in He as [He | He];
      [now apply in_rounds in He | now apply in_partial in He].
  - rewrite Ht in He. contradiction.
Qed.

(** *** The order of the pthread calls *)

(** The pthread calls main has made are always an initial part of: ten
    calls of pthread_create, for the elements in order, and then
    pthread_join on the first element.  So no join is called before all
    ten threads are created, and nothing is called after that join. *)
Theorem calls_follow_program_order tids sched :
  let c := main_moves sched in
  calls (run tids sched init)
  = firstn (if 12 <=? c then 11 else Nat.min 10 c) all_calls.
Proof.
  intros c.
  destruct (reachable_ok tids sched) as [(_ & _ & _ & Hcalls & _) _].
  fold c in Hcalls. rewrite Hcalls.
  destruct (Nat.leb_spec 12 c) as [Hc | Hc].
  - rewrite Nat.min_l by lia. reflexivity.
  - rewrite app_nil_r.
    assert (Hn : Nat.min 10 c <= 10) by lia.
    revert Hn. generalize (Nat.min 10 c). intros n Hn.
    do 11 (destruct n as [|n]; [reflexivity |]). lia.
Qed.

(** *** Reporting goes on for ever *)

Lemma progress_same j s s' :
  pool s' = pool s -> out s' = out s -> progress j s' = progress j s.
Proof. unfold progress, frags. now intros -> ->. Qed.

(** No move sets a thread back, and each of its own moves takes a thread
    that exists further. *)
Lemma progress_step tids c s a j :
  ok tids c s ->
  progress j s <= progress j (step_or_stay tids a s) /\
  (a = Spawned j -> 1 <= progress j s ->
   progress j s < progress j (step_or_stay tids a s)).
Proof.
  intros Hok. destruct a as [|i].
  - split; [| discriminate].
    destruct (Nat.lt_ge_cases c 10) as [Hc | Hc].
    + destruct Hok as [Hm _]. rewrite (main_creates tids c s Hm Hc).
      unfold progress. cbn [pool].
      rewrite (frags_same j s (State _ _ _ _ _ _)) by reflexivity.
      destruct (pool s !! j) as [th|] eqn:E; [| lia].
      rewrite lookup_app_l by (now apply lookup_lt_Some in E).
      now rewrite E.
    + rewrite (main_waits tids c s Hok Hc).
      destruct (c =? 10);
        [rewrite (progress_same j s (goto _ _)) by reflexivity; lia |].
      destruct (c =? 11);
        [rewrite (progress_same j s (goto _ _)) by reflexivity; lia | lia].
  - destruct (pool s !! i) as [th|] eqn:Hi.
    2: { rewrite thread_absent by exact Hi. split; [lia |].
         intros [= ->] H. unfold progress in H. rewrite Hi in H. lia. }
    rewrite (thread_moves tids c s i th Hok Hi).
    set (s' := State _ _ _ _ _ _).
    assert (Hp : progress j s'
      = match <[i := Thread (tid th) say_hi
                        (fst (say_hi (tid th) (at_label th)))]> (pool s) !! j
        with
        | None => 0
        | Some th' =>
            1 + 2 * List.length
                      (frags j s ++
                       (if Nat.eqb i j
                        then match snd (say_hi (tid th) (at_label th)) with
                             | Some x => [x]
                             | None => []
                             end
                        else []))
            + match at_label th' with
              | L_put_thread => 2
              | L_while | L_put_tid => 1
              | L_put_reporting | L_sleep | L_return => 0
              end
        end).
    { unfold progress, s'. cbn [pool].
      now rewrite (frags_emit j i _ s (State _ _ _ _ _ _)) by reflexivity. }
    rewrite Hp. clear Hp. clearbody s'.
    destruct (Nat.eqb_spec i j) as [<- | Hne].
    + destruct Hok as [_ Ht]. specialize (Ht i). unfold thread_ok in Ht.
      rewrite Hi in Ht. destruct Ht as (_ & _ & Hl & _).
      rewrite list_lookup_insert_eq by (now apply lookup_lt_Some in Hi).
      unfold progress. rewrite Hi. cbn [at_label].
      rewrite !List.length_app.
      destruct (at_label th) eqn:E; cbn; try congruence;
        (split; [lia | intros _ Hr; lia]).
    + rewrite list_lookup_insert_ne by exact Hne.
      rewrite app_nil_r. fold (progress j s). split; [lia |].
      intros [= ->]. congruence.
Qed.

(** A thread that is far enough has written many whole lines. *)
Lemma progress_lines tids c s j N :
  ok tids c s -> 6 * N + 6 <= progress j s ->
  exists k p,
    N <= k /\
    written_by j s = (copies k (report (tids j) ++ nl) ++ p)%string.
Proof.
  intros [_ Ht] Hr. specialize (Ht j). unfold thread_ok in Ht.
  unfold progress in Hr. destruct (pool s !! j) as [th|]; [| lia].
  destruct Ht as (_ & _ & _ & n & Hf & _).
  rewrite Hf, List.length_app, length_rounds in Hr.
  exists n, (concat (partial (tids j) (at_label th))). split.
  - destruct (at_label th); cbn in Hr; lia.
  - unfold written_by. now rewrite Hf, concat_app, concat_rounds.
Qed.

Lemma for_all_below (P : nat -> nat -> Prop) (k : nat) :
  (forall j, j < k -> exists n, forall n', n <= n' -> P j n') ->
  exists n, forall n' j, n <= n' -> j < k -> P j n'.
Proof.
  induction k as [|k IH]; intros H.
  - exists 0. intros n' j _ Hj. lia.
  - destruct IH as (na & Ha); [intros j Hj; apply H; lia |].
    destruct (H k) as (nb & Hb); [lia |].
    exists (Nat.max na nb). intros n' j Hn' Hj.
    destruct (Nat.eq_dec j k) as [-> | Hne].
    + apply Hb. lia.
    + apply Ha; lia.
Qed.

(** Under a schedule that chooses main and each of the ten threads again
    and again, every thread writes more lines than any given number: for
    every [N] there is a point from which on each of the ten threads has
    written at least [N] whole reports. *)
Theorem every_thread_keeps_reporting tids f :
  recurs f Main ->
  (forall j, j < 10 -> recurs f (Spawned j)) ->
  forall N, exists n, forall n' j,
    n <= n' -> j < 10 ->
    exists k p,
      N <= k /\
      written_by j (run tids (upto f n') init)
      = (copies k (report (tids j) ++ nl) ++ p)%string.
Proof.
  intros Hmain Hthreads N.
  apply (for_all_below
           (fun j n' => exists k p, N <= k /\
              written_by j (run tids (upto f n') init)
              = (copies k (report (tids j) ++ nl) ++ p)%string)).
  intros j Hlt.
  destruct (eventually_all_spawned tids f Hmain) as (n1 & Hn1).
  pose (r := fun n => progress j (run tids (upto f n) init)).
  assert (Hmono : forall n, r n <= r (S n)).
  { intros n. unfold r. rewrite run_upto_S.
    apply (progress_step tids _ _ _ j (reachable_ok tids (upto f n))). }
  assert (Hle : forall n m, n <= m -> r n <= r m).
  { intros n m Hnm. induction Hnm as [|m Hnm IH]; [lia |].
    specialize (Hmono m). lia. }
  assert (H1 : 1 <= r n1).
  { unfold r, progress.
    destruct (pool _ !! j) as [th|] eqn:E; [lia |].
    apply lookup_ge_None_1 in E. lia. }
  destruct (climbs r (fun n => f n = Spawned j) n1 (6 * N + 6))
    as (n2 & Hn2 & HB).
  - intros n _. apply Hmono.
  - intros n Hn Hhit _. unfold r. rewrite run_upto_S.
    apply (progress_step tids _ _ _ j (reachable_ok tids (upto f n)));
      [exact Hhit |].
    specialize (Hle n1 n Hn). fold (r n). lia.
  - apply Hthreads, Hlt.
  - exists n2. intros n' Hn'.
    apply (progress_lines tids _ _ j N (reachable_ok tids (upto f n'))).
    specialize (Hle n2 n' Hn'). unfold r in Hle, HB. lia.
Qed.

Lemma round_robin_keeps_reporting :
  exists n, forall n' j,
    n <= n' -> j < 10 ->
    exists k p,
      3 <= k /\
      written_by j (run tids0 (upto round_robin n') init)
      = (copies k (report (tids0 j) ++ nl) ++ p)%string.
Proof.
  apply (every_thread_keeps_reporting tids0 round_robin
           round_robin_main round_robin_spawned 3).
Defined.

(** *** Reading the thread id back *)












(** *** A thread that writes alone *)

Lemma filter_all {A} (f : A -> bool) (l : list A) :
  (forall x, In x l -> f x = true) -> List.filter f l = l.
Proof.
  induction l as [|x l IH]; intros H; [reflexivity |].
  cbn. rewrite (H x) by now left. f_equal. apply IH.
  intros y Hy. apply H. now right.
Qed.

Lemma split_copies_rest (r p : string) (n : nat) :
  occurs newline r = false -> occurs newline p = false ->
  split_on newline (copies n (r ++ nl) ++ p) = repeat r n ++ [p].
Proof.
  intros Hr Hp. induction n as [|n IH].
  - cbn. now apply split_on_absent.
  - cbn [copies repeat]. rewrite !append_assoc. unfold nl at 1.
    cbn [append]. rewrite split_on_sep by exact Hr. now rewrite IH.
Qed.

Lemma lines_copies_rest (r p : string) (n : nat) :
  occurs newline r = false -> occurs newline p = false ->
  lines (copies n (r ++ nl) ++ p)
  = repeat r n ++ (if nonempty p then [p] else []).
Proof.
  intros Hr Hp. unfold lines. rewrite split_copies_rest by assumption.
  rewrite List.last_last. destruct p as [|c p]; cbn [nonempty].
  - now rewrite List.removelast_last, app_nil_r.
  - reflexivity.
Qed.

(** While only one thread has written, nothing is garbled: every line on
    standard output is that thread's report, except for a last line that
    is still being written. *)
Theorem a_lone_writer_prints_whole_reports tids sched j :
  (forall e, In e (out (run tids sched init)) -> fst e = j) ->
  exists n p,
    lines (stdout (run tids sched init))
    = repeat (report (tids j)) n ++ (if nonempty p then [p] else []) /\
    In p [EmptyString; "Thread "%string;
          ("Thread " ++ fmt_d (tids j))%string].
Proof.
  intros Hall.
  destruct (written_rounds tids sched j) as (n & p & Hw & Hp).
  exists n, p. split; [| exact Hp].
  assert (Hs : stdout (run tids sched init)
               = written_by j (run tids sched init)).
  { unfold stdout, written_by, frags. rewrite filter_all; [reflexivity |].
    intros e He. apply Nat.eqb_eq. now apply Hall. }
  rewrite Hs, Hw. apply lines_copies_rest; [apply report_one_line |].
  destruct Hp as [<- | [<- | [<- | []]]]; try reflexivity.
  rewrite occurs_app.
  pose proof (fmt_d_clean (tids j)) as H. unfold clean in H.
  apply andb_true_iff in H as [_ H]. apply negb_true_iff in H.
  now rewrite H.
Qed.

Lemma first_thread_alone_prints_whole_reports :
  exists n p,
    lines (stdout (run tids0 cut_short init))
    = repeat (report (tids0 0)) n ++ (if nonempty p then [p] else []) /\
    In p [EmptyString; "Thread "%string;
          ("Thread " ++ fmt_d (tids0 0))%string].
Proof.
  apply (a_lone_writer_prints_whole_reports tids0 cut_short 0).
  intros e He. vm_compute in He.
  repeat (destruct He as [<- | He]; [reflexivity |]). contradiction.
Defined.

End MultiThreaded2More.
